(** * YouTube Watch Logger: the intake pipeline of [background.js]

    A shallow embedding of the service worker of the extension
    ([src/background.js]), of the helpers and the storage handlers of
    the popup ([src/popup.js]) and of the video detection of the content
    script ([src/content.js]), with the properties of the dedup guard,
    the retrying metadata fetcher, the category cache, the bounded log,
    the orchestrator [logYouTubeWatch], the message listener, the export
    helpers and the detection of the current video.

    Conventions.
    - JavaScript numbers that the code handles here are integers
      (millisecond instants, digit captures, counters); they are
      modelled as [Z], exact below 2^53.  The one division of the code
      ([ageMin]) is modelled over [Q].
    - [null] and [undefined] of a string-valued slot are [None].
    - The asynchronous functions are run one intake at a time: every
      [await] is a sequencing point of a state-and-exception monad over
      the [world]; interleavings of concurrent intakes are not modelled.
    - The clock of the world moves in [sleep] only: a round trip to the
      network or to the storage takes no time, so that two readings of
      the clock with no [sleep] in between give the same instant, where
      the code may see them some milliseconds apart. *)

From Stdlib Require Import QArith.
From stdpp Require Import base strings list gmap sorting.
From Stdlib Require Import Ascii String ZArith Lia DecimalString.

Open Scope Z_scope.
Open Scope string_scope.

#[local] Arguments String.append !_ _ : simpl nomatch.

(** ** Strings *)

Module Str.

(** [s.startsWith(p)]. *)
Fixpoint starts_with (p s : string) : bool :=
  match p, s with
  | EmptyString, _ => true
  | String a p', String b s' => if Ascii.eqb a b then starts_with p' s' else false
  | String _ _, EmptyString => false
  end.

(** [s.includes(p)]: [p] occurs at some position of [s]. *)
Fixpoint includes (p s : string) : bool :=
  if starts_with p s then true
  else match s with
       | EmptyString => false
       | String _ s' => includes p s'
       end.

(** The class [\d] of a regular expression without the [u] flag. *)
Definition is_digit (a : ascii) : bool :=
  let n := nat_of_ascii a in (Nat.leb 48 n && Nat.leb n 57)%bool.

Fixpoint all_digits (s : string) : bool :=
  match s with
  | EmptyString => true
  | String a s' => (is_digit a && all_digits s')%bool
  end.

Definition digit_value (a : ascii) : Z := Z.of_nat (nat_of_ascii a) - 48.

(** The longest prefix of digits, and what follows it: the greedy [\d+]
    (an empty first component means that [\d+] fails). *)
Fixpoint span_digits (s : string) : string * string :=
  match s with
  | String a s' =>
      if is_digit a
      then let (ds, rest) := span_digits s' in (String a ds, rest)
      else (EmptyString, s)
  | EmptyString => (EmptyString, EmptyString)
  end.

End Str.

(** ** Utilities of [background.js] *)

(** [parseInt(x, 10)] on the arguments it receives in this program: digit
    captures, the literal "0", and the whole match (which starts with
    "PT").  The digits at the front are read in base 10; without a
    leading digit the result is [NaN], here [None].  The numbers of the
    code are doubles: the value read here is the one of the code as long
    as it is below 2^53 (above, the code rounds), and the statements
    about the value of a duration keep to that range. *)
Fixpoint parseInt_digits (acc : Z) (s : string) : Z :=
  match s with
  | String a s' =>
      if Str.is_digit a then parseInt_digits (10 * acc + Str.digit_value a) s' else acc
  | EmptyString => acc
  end.

Definition parseInt (x : string) : option Z :=
  match x with
  | String a _ => if Str.is_digit a then Some (parseInt_digits 0 x) else None
  | EmptyString => None
  end.

(** The result of [RegExp.prototype.exec] for the duration pattern: the
    three capture groups, [None] for a group that did not take part. *)
Record duration_match := {
  grpH : option string;
  grpM : option string;
  grpS : option string
}.

(** One optional group [(?:(\d+)c)?] at the front of [s]: the group takes
    part when the longest run of digits is not empty and is followed by
    [c]; otherwise it matches the empty string.  (A shorter run of digits
    is followed by a digit, so backtracking inside [\d+] never helps.) *)
Definition opt_component (c : ascii) (s : string) : option string * string :=
  match Str.span_digits s with
  | (String d ds, String c' rest) =>
      if Ascii.eqb c c' then (Some (String d ds), rest) else (None, s)
  | _ => (None, s)
  end.

(** The pattern [PT(?:(\d+)H)?(?:(\d+)M)?(?:(\d+)S)?] tried at the front
    of [s]. *)
Definition match_here (s : string) : option duration_match :=
  match s with
  | String "P" (String "T" s1) =>
      let (h, s2) := opt_component "H" s1 in
      let (m, s3) := opt_component "M" s2 in
      let (sec, _) := opt_component "S" s3 in
      Some {| grpH := h; grpM := m; grpS := sec |}
  | _ => None
  end.

(** [/PT.../.exec(s)]: the pattern is not anchored, so every start
    position is tried from the left. *)
Fixpoint regex_exec (s : string) : option duration_match :=
  match match_here s with
  | Some m => Some m
  | None =>
      match s with
      | EmptyString => None
      | String _ s' => regex_exec s'
      end
  end.

(** [parseInt(x || "0", 10)] for a capture [x], then [(h || 0)]. *)
Definition component_value (x : option string) : Z :=
  let arg := match x with
             | Some EmptyString | None => "0"
             | Some s => s
             end in
  match parseInt arg with
  | Some n => n
  | None => 0
  end.

(** [parseISODurationToSeconds(iso)]; [iso] is [None] when the field is
    [undefined]; the result is [None] for [null]. *)
Definition parseISODurationToSeconds (iso : option string) : option Z :=
  match regex_exec (default "" iso) with
  | None => None
  | Some m =>
      Some (component_value (grpH m) * 3600
            + component_value (grpM m) * 60
            + component_value (grpS m))
  end.

(** [inferIsShorts({ url, durationSeconds })]; a [null] duration is
    [None], and its [typeof] is not ["number"]. *)
Definition inferIsShorts (url : option string) (durationSeconds : option Z) : bool :=
  if match url with
     | Some u => Str.includes "/shorts/" u
     | None => false
     end
  then true
  else if match durationSeconds with
          | Some d => (d <=? 60)%Z
          | None => false
          end
  then true
  else false.

(** ** The catalog API

    What the three endpoints answer.  Only the fields that the worker
    reads are kept; a field that is missing in the JSON is [None].  The
    pass-through objects of a video ([thumbnails], [regionRestriction],
    [contentRating]) and the numeric statistics take no part in any
    decision of the worker and are left out of the records. *)

Record video_resource := {
  v_id : string;
  sn_title : option string;
  sn_description : option string;
  sn_publishedAt : option string;
  sn_channelId : option string;
  sn_channelTitle : option string;
  sn_tags : option (list string);
  sn_categoryId : option string;
  sn_defaultLanguage : option string;
  sn_defaultAudioLanguage : option string;
  sn_liveBroadcastContent : option string;
  cd_duration : option string;
  cd_definition : option string;
  cd_caption : option string;
  st_madeForKids : option bool;
  td_topicCategories : option (list string)
}.

Record category_resource := { cat_title : option string }.

Record channel_resource := {
  c_id : string;
  c_customUrl : option string;
  c_country : option string;
  c_description : option string;
  c_publishedAt : option string;
  c_bannerExternalUrl : option string
}.

(** The outcome of [await fetch(url)] followed by [await res.json()].
    [Rejected]: the promise of [fetch] rejects (transport failure), or the
    body of a success response does not parse; in both cases the [await]
    raises.  [Http]: a response with its status line, and the [items] of
    its body ([[]] when the body has none). *)
Inductive response (A : Type) : Type :=
| Rejected
| Http (status : Z) (statusText : string) (items : list A).
Arguments Rejected {A}.
Arguments Http {A} status statusText items.

(** [res.ok]: the status is in the range 200-299. *)
Definition res_ok (status : Z) : bool := ((200 <=? status)%Z && (status <=? 299)%Z)%bool.

(** The network the worker talks to: the answer to the [n]-th request
    (counted from 0) sent to each endpoint. *)
Record network := {
  videos : nat -> response video_resource;
  videoCategories : nat -> response category_resource;
  channels : nat -> response channel_resource
}.

Inductive endpoint := Videos | VideoCategories | Channels.

(** What [fetchVideoMetadataRich] can raise. *)
Inductive error :=
| TransportError
| VideosListError (status : Z) (statusText : string)
| VideoNotFound.

(** ** Records of the worker *)

Record config := { apiKey : string; profile : string }.

Record metadata := {
  m_videoId : string;
  m_title : option string;
  m_description : option string;
  m_publishedAt : option string;
  m_channelId : option string;
  m_channelTitle : option string;
  m_tags : list string;
  m_categoryId : option string;
  m_defaultLanguage : option string;
  m_defaultAudioLanguage : option string;
  m_durationSeconds : option Z;
  m_definition : option string;
  m_caption : option bool;
  m_liveContent : string;
  m_madeForKids : option bool;
  m_topicCategories : list string
}.

Record channel_basics := {
  cb_channelId : string;
  cb_customUrl : option string;
  cb_channelCountry : option string;
  cb_channelDescription : option string;
  cb_channelCreatedAt : option string;
  cb_banner : option string
}.

Record entry := {
  e_videoId : string;
  e_url : string;
  e_profile : string;
  e_title : option string;
  e_description : option string;
  e_channelId : option string;
  e_channelTitle : option string;
  e_publishedAt : option string;
  e_durationSeconds : option Z;
  e_isShorts : bool;
  e_liveContent : string;
  e_categoryId : option string;
  e_categoryName : option string;
  e_tags : list string;
  e_topicCategories : list string;
  e_defaultLanguage : option string;
  e_defaultAudioLanguage : option string;
  e_caption : option bool;
  e_madeForKids : option bool;
  e_watchedAt : Z;
  e_channelExtra : option channel_basics
}.

Record playlist_link := { pl_url : string; pl_count : Z; pl_createdAt : Z }.

(** ** The world of the extension *)

(** [chrome.storage.sync]: a key that was never set is [None]. *)
Record sync_storage := {
  stored_apiKey : option string;
  stored_profile : option string
}.

(** [chrome.storage.local].  [watchLog] and [playlistLinks] are [None]
    when the key is absent or holds something that is not an array.
    [lastLogged] maps a dedup key to the instant (milliseconds since the
    epoch) that its ISO string denotes: [markLogged] writes
    [new Date().toISOString()] and [recentlyLogged] reads it back with
    [new Date(last).getTime()], which returns the same millisecond. *)
Record local_storage := {
  watchLog : option (list entry);
  lastLogged : gmap string Z;
  playlistLinks : option (list playlist_link)
}.

Record call_counts := {
  videos_calls : nat;
  videoCategories_calls : nat;
  channels_calls : nat
}.

(** What an observer of the worker sees, in order. *)
Inductive event :=
| EvSyncGet
| EvLocalGet (key : string)
| EvLocalSet (keys : list string)
| EvFetch (ep : endpoint) (id : string)
| EvSleep (ms : Z)
| EvSendMessage (e : entry)
| EvConsoleError (err : error).

Record world := {
  sync : sync_storage;
  local : local_storage;
  categoryNameCache : gmap string (option string);
  now : Z;
  net : network;
  calls : call_counts;
  trace : list event
}.

Definition emit (ev : event) (w : world) : world :=
  {| sync := sync w; local := local w; categoryNameCache := categoryNameCache w;
     now := now w; net := net w; calls := calls w; trace := (trace w ++ [ev])%list |}.

Definition with_local (l : local_storage) (w : world) : world :=
  {| sync := sync w; local := l; categoryNameCache := categoryNameCache w;
     now := now w; net := net w; calls := calls w; trace := trace w |}.

Definition with_cache (c : gmap string (option string)) (w : world) : world :=
  {| sync := sync w; local := local w; categoryNameCache := c;
     now := now w; net := net w; calls := calls w; trace := trace w |}.

Definition with_calls (c : call_counts) (w : world) : world :=
  {| sync := sync w; local := local w; categoryNameCache := categoryNameCache w;
     now := now w; net := net w; calls := c; trace := trace w |}.

Definition advance (ms : Z) (w : world) : world :=
  {| sync := sync w; local := local w; categoryNameCache := categoryNameCache w;
     now := now w + ms; net := net w; calls := calls w; trace := trace w |}.

(** ** Asynchronous functions: state and exceptions *)

Inductive outcome (A : Type) : Type :=
| Ok (a : A)
| Throw (e : error).
Arguments Ok {A} a.
Arguments Throw {A} e.

Definition M (A : Type) : Type := world -> outcome A * world.

Definition ret {A} (a : A) : M A := fun w => (Ok a, w).

Definition throw {A} (e : error) : M A := fun w => (Throw e, w).

Definition bind {A B} (m : M A) (k : A -> M B) : M B :=
  fun w => match m w with
           | (Ok a, w') => k a w'
           | (Throw e, w') => (Throw e, w')
           end.

(** [try { m } catch (e) { h(e) }]. *)
Definition try_catch {A} (m : M A) (h : error -> M A) : M A :=
  fun w => match m w with
           | (Ok a, w') => (Ok a, w')
           | (Throw e, w') => h e w'
           end.

Definition tell (ev : event) : M unit := fun w => (Ok tt, emit ev w).

Notation "'await' x <- m ; k" := (bind m (fun x => k))
  (at level 10, x name, m at level 100, k at level 200).
Notation "'exec' m ; k" := (bind m (fun _ => k))
  (at level 10, m at level 100, k at level 200).

(** ** Primitives of the platform *)

(** [await sleep(ms)]. *)
Definition sleep (ms : Z) : M unit :=
  fun w => (Ok tt, advance ms (emit (EvSleep ms) w)).

(** [Date.now()], [new Date()]. *)
Definition Date_now : M Z := fun w => (Ok (now w), w).

(** One request to an endpoint: the event is recorded, the call counter of
    the endpoint is advanced, and the answer of the network is returned;
    a rejected promise raises at the [await]. *)
Definition fetch_videos (videoId : string) : M (Z * string * list video_resource) :=
  fun w =>
    let n := videos_calls (calls w) in
    let w' := with_calls {| videos_calls := S n;
                            videoCategories_calls := videoCategories_calls (calls w);
                            channels_calls := channels_calls (calls w) |}
                         (emit (EvFetch Videos videoId) w) in
    match videos (net w) n with
    | Rejected => (Throw TransportError, w')
    | Http status statusText items => (Ok (status, statusText, items), w')
    end.

Definition fetch_videoCategories (categoryId : string)
  : M (Z * string * list category_resource) :=
  fun w =>
    let n := videoCategories_calls (calls w) in
    let w' := with_calls {| videos_calls := videos_calls (calls w);
                            videoCategories_calls := S n;
                            channels_calls := channels_calls (calls w) |}
                         (emit (EvFetch VideoCategories categoryId) w) in
    match videoCategories (net w) n with
    | Rejected => (Throw TransportError, w')
    | Http status statusText items => (Ok (status, statusText, items), w')
    end.

Definition fetch_channels (channelId : string)
  : M (Z * string * list channel_resource) :=
  fun w =>
    let n := channels_calls (calls w) in
    let w' := with_calls {| videos_calls := videos_calls (calls w);
                            videoCategories_calls := videoCategories_calls (calls w);
                            channels_calls := S n |}
                         (emit (EvFetch Channels channelId) w) in
    match channels (net w) n with
    | Rejected => (Throw TransportError, w')
    | Http status statusText items => (Ok (status, statusText, items), w')
    end.

(** [x || null] for a string slot: [undefined] and the empty string are
    falsy. *)
Definition or_null (x : option string) : option string :=
  match x with
  | Some EmptyString | None => None
  | Some s => Some s
  end.

(** Truthiness of a string slot. *)
Definition truthy (x : option string) : bool :=
  match or_null x with
  | Some _ => true
  | None => false
  end.

(** ** [background.js] *)

(** [getConfig()]: [chrome.storage.sync.get({ apiKey: "", profile: "Child" })]. *)
Definition getConfig : M config :=
  fun w =>
    (Ok {| apiKey := default "" (stored_apiKey (sync w));
           profile := default "Child" (stored_profile (sync w)) |},
     emit EvSyncGet w).

(** [getCategoryName(categoryId, apiKey, regionCode)]. *)
Definition getCategoryName (categoryId : option string) (apiKey regionCode : string)
  : M (option string) :=
  match or_null categoryId with
  | None => ret None
  | Some cid =>
      let cacheKey := regionCode ++ ":" ++ cid in
      fun w =>
        match categoryNameCache w !! cacheKey with
        | Some cached => (Ok cached, w)
        | None =>
            (await res <- fetch_videoCategories cid;
             let '(status, _, items) := res in
             if negb (res_ok status) then ret None
             else
               let name := or_null (head items ≫= cat_title) in
               fun w' => (Ok name, with_cache (<[cacheKey := name]> (categoryNameCache w')) w')) w
        end
  end.

(** The record built from the first item of a [videos.list] answer. *)
Definition metadata_of (v : video_resource) : metadata :=
  {| m_videoId := v_id v;
     m_title := or_null (sn_title v);
     m_description := or_null (sn_description v);
     m_publishedAt := or_null (sn_publishedAt v);
     m_channelId := or_null (sn_channelId v);
     m_channelTitle := or_null (sn_channelTitle v);
     m_tags := default [] (sn_tags v);
     m_categoryId := or_null (sn_categoryId v);
     m_defaultLanguage := or_null (sn_defaultLanguage v);
     m_defaultAudioLanguage := or_null (sn_defaultAudioLanguage v);
     m_durationSeconds := parseISODurationToSeconds (cd_duration v);
     m_definition := or_null (cd_definition v);
     m_caption := Some (bool_decide (cd_caption v = Some "true"));
     m_liveContent := default "none" (or_null (sn_liveBroadcastContent v));
     m_madeForKids := st_madeForKids v;
     m_topicCategories := default [] (td_topicCategories v) |}.

(** The body of the [try] block of [fetchVideoMetadataRich]: one attempt. *)
Definition fetch_attempt (videoId : string) : M metadata :=
  await res <- fetch_videos videoId;
  let '(status, statusText, items) := res in
  if negb (res_ok status) then throw (VideosListError status statusText)
  else match items with
       | [] => throw VideoNotFound
       | v :: _ => ret (metadata_of v)
       end.

(** The [while (true)] loop of [fetchVideoMetadataRich].  [left] is
    [maxRetries - attempt], the number of retries that remain: the test
    [attempt >= maxRetries] of the [catch] block is [left = 0], and each
    retry decreases it, which is why the loop ends. *)
Fixpoint fetch_loop (videoId : string) (left : nat) (attempt : Z) : M metadata :=
  try_catch (fetch_attempt videoId)
    (fun e =>
       match left with
       | O => throw e
       | S left' =>
           let attempt' := attempt + 1 in
           exec sleep (300 * attempt');
           fetch_loop videoId left' attempt'
       end).

(** [fetchVideoMetadataRich(videoId, apiKey, { maxRetries })]. *)
Definition fetchVideoMetadataRich (videoId apiKey : string) (maxRetries : nat) : M metadata :=
  fetch_loop videoId maxRetries 0.

(** [fetchChannelBasics(channelId, apiKey)]. *)
Definition fetchChannelBasics (channelId : option string) (apiKey : string)
  : M (option channel_basics) :=
  match or_null channelId with
  | None => ret None
  | Some chid =>
      await res <- fetch_channels chid;
      let '(status, _, items) := res in
      if negb (res_ok status) then ret None
      else match items with
           | [] => ret None
           | c :: _ =>
               ret (Some {| cb_channelId := c_id c;
                            cb_customUrl := or_null (c_customUrl c);
                            cb_channelCountry := or_null (c_country c);
                            cb_channelDescription := or_null (c_description c);
                            cb_channelCreatedAt := or_null (c_publishedAt c);
                            cb_banner := or_null (c_bannerExternalUrl c) |})
           end
  end.

(** The key of the dedup table: [`${profile}:${videoId}`]. *)
Definition dedup_key (profile videoId : string) : string := profile ++ ":" ++ videoId.

(** [ageMin < ttlMinutes] with [ageMin = (Date.now() - last) / 60000]. *)
Definition age_below (nowMs last ttlMinutes : Z) : bool :=
  let ageMin := Qmake (nowMs - last) 60000 in
  if Qlt_le_dec ageMin (inject_Z ttlMinutes) then true else false.

(** [recentlyLogged(profile, videoId, ttlMinutes)]. *)
Definition recentlyLogged (profile videoId : string) (ttlMinutes : Z) : M bool :=
  exec tell (EvLocalGet "lastLogged");
  fun w =>
    match lastLogged (local w) !! dedup_key profile videoId with
    | None => (Ok false, w)
    | Some last => (Ok (age_below (now w) last ttlMinutes), w)
    end.

(** [markLogged(profile, videoId)]. *)
Definition markLogged (profile videoId : string) : M unit :=
  exec tell (EvLocalGet "lastLogged");
  await t <- Date_now;
  fun w =>
    let l := local w in
    (Ok tt,
     emit (EvLocalSet ["lastLogged"])
       (with_local {| watchLog := watchLog l;
                      lastLogged := <[dedup_key profile videoId := t]> (lastLogged l);
                      playlistLinks := playlistLinks l |} w)).

(** [list.splice(0, deleteCount)]: the count is clamped to the length. *)
Definition splice0 {A} (deleteCount : Z) (l : list A) : list A :=
  drop (Z.to_nat (Z.min (Z.max deleteCount 0) (Z.of_nat (List.length l)))) l.

(** The callback of [setLogEntry]: push, then trim the oldest. *)
Definition push_and_trim (stored : option (list entry)) (e : entry) (maxEntries : Z)
  : list entry :=
  let list := (default [] stored ++ [e])%list in
  if (Z.of_nat (List.length list) >? maxEntries)%Z
  then splice0 (Z.of_nat (List.length list) - maxEntries) list
  else list.

(** [setLogEntry(entry, maxEntries)]. *)
Definition setLogEntry (e : entry) (maxEntries : Z) : M unit :=
  exec tell (EvLocalGet "watchLog");
  fun w =>
    let l := local w in
    (Ok tt,
     emit (EvLocalSet ["watchLog"])
       (with_local {| watchLog := Some (push_and_trim (watchLog l) e maxEntries);
                      lastLogged := lastLogged l;
                      playlistLinks := playlistLinks l |} w)).

(** The minimal record used when no API key is set. *)
Definition fallback_meta (videoId : string) : metadata :=
  {| m_videoId := videoId;
     m_title := None;
     m_description := None;
     m_publishedAt := None;
     m_channelId := None;
     m_channelTitle := None;
     m_tags := [];
     m_categoryId := None;
     m_defaultLanguage := None;
     m_defaultAudioLanguage := None;
     m_durationSeconds := None;
     m_definition := None;
     m_caption := None;
     m_liveContent := "none";
     m_madeForKids := None;
     m_topicCategories := [] |}.

(** The object literal [entry] of [logYouTubeWatch]. *)
Definition make_entry (videoId url : string) (cfg : config) (meta : metadata)
    (categoryName : option string) (channelExtra : option channel_basics)
    (watchedAt : Z) : entry :=
  {| e_videoId := videoId;
     e_url := url;
     e_profile := profile cfg;
     e_title := m_title meta;
     e_description := m_description meta;
     e_channelId := m_channelId meta;
     e_channelTitle := m_channelTitle meta;
     e_publishedAt := m_publishedAt meta;
     e_durationSeconds := m_durationSeconds meta;
     e_isShorts := inferIsShorts (Some url) (m_durationSeconds meta);
     e_liveContent := m_liveContent meta;
     e_categoryId := m_categoryId meta;
     e_categoryName := categoryName;
     e_tags := m_tags meta;
     e_topicCategories := m_topicCategories meta;
     e_defaultLanguage := m_defaultLanguage meta;
     e_defaultAudioLanguage := m_defaultAudioLanguage meta;
     e_caption := m_caption meta;
     e_madeForKids := m_madeForKids meta;
     e_watchedAt := watchedAt;
     e_channelExtra := channelExtra |}.

(** The statements of the [try] block that follow the metadata:
    enrichment, the entry, the append, the mark, the notification.  The
    entry reads the clock for [watchedAt], and [markLogged] reads it
    again after the append. *)
Definition enrich_and_log (videoId url : string) (cfg : config) (meta : metadata) : M unit :=
  let hasKey := truthy (Some (apiKey cfg)) in
  await categoryName <- (if hasKey then getCategoryName (m_categoryId meta) (apiKey cfg) "US"
                         else ret None);
  await channelExtra <- (if (hasKey && truthy (m_channelId meta))%bool
                         then fetchChannelBasics (m_channelId meta) (apiKey cfg)
                         else ret None);
  await watchedAt <- Date_now;
  let entry := make_entry videoId url cfg meta categoryName channelExtra watchedAt in
  exec setLogEntry entry 5000;
  exec markLogged (profile cfg) videoId;
  tell (EvSendMessage entry).

(** The [try] block of [logYouTubeWatch({ videoId, url })]. *)
Definition logYouTubeWatch_body (videoId url : string) : M unit :=
  await cfg <- getConfig;
  await recent <- recentlyLogged (profile cfg) videoId 120;
  if recent then ret tt
  else
    await meta <- (if truthy (Some (apiKey cfg))
                   then fetchVideoMetadataRich videoId (apiKey cfg) 3
                   else ret (fallback_meta videoId));
    enrich_and_log videoId url cfg meta.

(** [logYouTubeWatch({ videoId, url })]: every error is caught and
    reported with [console.error]. *)
Definition logYouTubeWatch (videoId url : string) : M unit :=
  try_catch (logYouTubeWatch_body videoId url)
            (fun err => tell (EvConsoleError err)).

(** ** [popup.js] *)

(** [rememberPlaylistLink(playlistUrl, count)]. *)
Definition rememberPlaylistLink (playlistUrl : string) (count : Z) : M unit :=
  exec tell (EvLocalGet "playlistLinks");
  await t <- Date_now;
  fun w =>
    let l := local w in
    let updated := (default [] (playlistLinks l)
                    ++ [{| pl_url := playlistUrl; pl_count := count; pl_createdAt := t |}])%list in
    (Ok tt,
     emit (EvLocalSet ["playlistLinks"])
       (with_local {| watchLog := watchLog l;
                      lastLogged := lastLogged l;
                      playlistLinks := Some updated |} w)).

(** The click handler of the "clear" button; [confirmed] is the answer
    of the [confirm] dialog.  After the write, [loadAndRender] reads the
    log again. *)
Definition clear_click (confirmed : bool) : M unit :=
  if negb confirmed then ret tt
  else
    exec (fun w =>
            (Ok tt,
             emit (EvLocalSet ["watchLog"; "playlistLinks"])
               (with_local {| watchLog := Some [];
                              lastLogged := lastLogged (local w);
                              playlistLinks := Some [] |} w)));
    tell (EvLocalGet "watchLog").

(** ** More of [popup.js] *)

(** [String(n)] and [`${n}`] for an integer. *)
Definition Number_toString (n : Z) : string := NilZero.string_of_int (Z.to_int n).

(** [parts.join(sep)]. *)
Fixpoint Array_join (sep : string) (parts : list string) : string :=
  match parts with
  | [] => ""
  | [x] => x
  | x :: parts' => x ++ sep ++ Array_join sep parts'
  end.

(** [fmtDur(sec)]; [sec] is [None] for [null] and [undefined].  On
    integers below 2^53 [Math.floor(a / b)] is the floor division (for
    the divisors 3600 and 60 the rounding of the quotient never reaches
    the next integer), [a % b] is the remainder with the sign of [a],
    and a number is printed with all its digits; above, the code rounds,
    and the statement about [fmtDur] keeps below. *)
Definition fmtDur (sec : option Z) : string :=
  match sec with
  | None => ""
  | Some sec =>
      let h := sec / 3600 in
      let m := Z.rem sec 3600 / 60 in
      let s := Z.rem sec 60 in
      let parts :=
        ((if (h =? 0)%Z then [] else [(Number_toString h ++ "h")%string])
         ++ (if ((m =? 0)%Z && (h =? 0)%Z)%bool then []
             else [(Number_toString m ++ "m")%string])
         ++ [(Number_toString s ++ "s")%string])%list in
      Array_join " " parts
  end.

(** The double quote character. *)
Definition dquote : ascii := "034"%char.

(** [s.replaceAll(q, q + q)] for the double quote [q]. *)
Fixpoint double_quotes (s : string) : string :=
  match s with
  | EmptyString => EmptyString
  | String a s' =>
      if Ascii.eqb a dquote
      then String dquote (String dquote (double_quotes s'))
      else String a (double_quotes s')
  end.

(** The helper [esc] of [toCsv]; the cell is [None] when it is [null] or
    [undefined], and a cell of another type arrives as its [String]. *)
Definition esc (cell : option string) : string :=
  String dquote (double_quotes (default "" cell) ++ String dquote EmptyString).

(** One data line of [toCsv]: [cells.map(esc).join(",")]. *)
Definition csv_line (cells : list (option string)) : string :=
  Array_join "," (List.map esc cells).

(** [uniquePreserveOrder(arr)]: the loop with its set [seen]. *)
Fixpoint unique_loop (seen : gset string) (arr : list string) : list string :=
  match arr with
  | [] => []
  | x :: arr' =>
      if decide (x ∈ seen) then unique_loop seen arr'
      else x :: unique_loop ({[x]} ∪ seen) arr'
  end.

Definition uniquePreserveOrder (arr : list string) : list string := unique_loop ∅ arr.

(** [(by[day] ||= []).push(r)] on an object whose keys are kept in the
    order of their insertion (the keys are dates, never array indices). *)
Fixpoint push_day (day : string) (r : entry) (by_day : list (string * list entry))
  : list (string * list entry) :=
  match by_day with
  | [] => [(day, [r])]
  | (d, g) :: rest =>
      if String.eqb d day then (d, (g ++ [r])%list) :: rest
      else (d, g) :: push_day day r rest
  end.

(** [groupByDay(rows)].  [isoDay t] is [new Date(t).toISOString().slice(0, 10)],
    the calendar day of the instant [t]; the branch for a date that does
    not parse is not there, since [watchedAt] is an instant here. *)
Definition groupByDay (isoDay : Z -> string) (rows : list entry)
  : list (string * list entry) :=
  foldl (fun by_day r => push_day (isoDay (e_watchedAt r)) r by_day) [] rows.

(** The sort of [applyFilters], newest first.  [Array.prototype.sort] is
    stable, so with the comparator [new Date(b.watchedAt) - new Date(a.watchedAt)]
    its result is the one of this insertion sort: an element goes behind
    the elements that are strictly newer, and in front of the others. *)
Fixpoint insert_newest_first (r : entry) (out : list entry) : list entry :=
  match out with
  | [] => [r]
  | x :: out' =>
      if (e_watchedAt r <? e_watchedAt x)%Z then x :: insert_newest_first r out'
      else r :: x :: out'
  end.

Definition sort_newest_first (rows : list entry) : list entry :=
  foldr insert_newest_first [] rows.

(** The text filter of [applyFilters] on one row. *)
Definition matches_query (toLowerCase : string -> string) (q : string) (r : entry) : bool :=
  (Str.includes q (toLowerCase (default "" (e_title r)))
   || Str.includes q (toLowerCase (default "" (e_channelTitle r))))%bool.

(** [applyFilters(rows)].  [q] is the trimmed, lower-cased text of the
    search box ([""] when there is none), [onlyShorts] and [onlyKids] the
    two check boxes; [toLowerCase] is the method of the platform. *)
Definition applyFilters (toLowerCase : string -> string) (q : string)
    (onlyShorts onlyKids : bool) (rows : list entry) : list entry :=
  let out := sort_newest_first rows in
  let out := if truthy (Some q) then List.filter (matches_query toLowerCase q) out else out in
  let out := if onlyShorts then List.filter e_isShorts out else out in
  let out := if onlyKids
             then List.filter (fun r => bool_decide (e_madeForKids r = Some true)) out
             else out in
  out.

(** The click handler of the "generate playlist" button; the result is
    the url given to [window.open], [None] when the handler returns
    before.  A stored log that is not an array is read as empty. *)
Definition generatePlaylist_click : M (option string) :=
  exec tell (EvLocalGet "watchLog");
  fun w =>
    let ids := List.filter (fun id => truthy (Some id)) (List.map e_videoId (default [] (watchLog (local w)))) in
    match ids with
    | [] => (Ok None, w)
    | _ :: _ =>
        let first50 := take 50 ids in
        let playlistUrl :=
          "https://www.youtube.com/watch_videos?video_ids=" ++ Array_join "," first50 in
        (exec rememberPlaylistLink playlistUrl (Z.of_nat (List.length first50));
         ret (Some playlistUrl)) w
    end.

(** ** Views of a run *)

(** The log as the worker and the popup see it:
    [Array.isArray(watchLog) ? watchLog : []]. *)
Definition log_of (w : world) : list entry := default [] (watchLog (local w)).

Definition links_of (w : world) : list playlist_link := default [] (playlistLinks (local w)).

(** The state after running an asynchronous function. *)
Definition after {A} (m : M A) (w : world) : world := snd (m w).

(** The value it returns ([None] when it raises). *)
Definition returned {A} (m : M A) (w : world) : option A :=
  match fst (m w) with
  | Ok a => Some a
  | Throw _ => None
  end.

(** The events it adds to the trace. *)
Definition events_of {A} (m : M A) (w : world) : list event :=
  drop (List.length (trace w)) (trace (after m w)).

Definition is_fetch (ep : endpoint) (ev : event) : bool :=
  match ev, ep with
  | EvFetch Videos _, Videos
  | EvFetch VideoCategories _, VideoCategories
  | EvFetch Channels _, Channels => true
  | _, _ => false
  end.

Definition is_any_fetch (ev : event) : bool :=
  match ev with
  | EvFetch _ _ => true
  | _ => false
  end.

(** The number of requests in a list of events. *)
Definition count_fetches (evs : list event) : nat :=
  List.length (List.filter is_any_fetch evs).

(** A run of appends with the default capacity, and the logs after each
    of them. *)
Fixpoint append_all (es : list entry) (w : world) : world :=
  match es with
  | [] => w
  | e :: es' => append_all es' (after (setLogEntry e 5000) w)
  end.

Fixpoint logs_after_each (es : list entry) (w : world) : list (list entry) :=
  match es with
  | [] => []
  | e :: es' =>
      let w' := after (setLogEntry e 5000) w in
      log_of w' :: logs_after_each es' w'
  end.

(** ** Notions used in the statements *)

(** The decimal value of a string of digits, most significant first. *)
Fixpoint dec_value (s : string) : Z :=
  match s with
  | EmptyString => 0
  | String a s' => Str.digit_value a * 10 ^ Z.of_nat (String.length s') + dec_value s'
  end.

(** A component of a duration, as the text of its number: digits, at
    least one. *)
Definition digits_ok (x : option string) : Prop :=
  match x with
  | Some d => d <> "" /\ Str.all_digits d = true
  | None => True
  end.

Definition component_text (x : option string) (unit : string) : string :=
  match x with
  | Some d => d ++ unit
  | None => ""
  end.

Definition component_number (x : option string) : Z :=
  match x with
  | Some d => dec_value d
  | None => 0
  end.

(** The text [PT[nH][nM][nS]]. *)
Definition duration_text (h m s : option string) : string :=
  "PT" ++ component_text h "H" ++ component_text m "M" ++ component_text s "S".

(** No capture group of the duration pattern took part in the match (or
    there was no match at all). *)
Definition no_field_matched (iso : option string) : Prop :=
  match regex_exec (default "" iso) with
  | Some m => grpH m = None /\ grpM m = None /\ grpS m = None
  | None => True
  end.

(** The url has the segment "/shorts/" somewhere. *)
Definition contains_shorts (url : option string) : Prop :=
  exists u pre post, url = Some u /\ u = pre ++ "/shorts/" ++ post.

(** The same world at the moment the clock shows [t]. *)
Definition at_time (t : Z) (w : world) : world :=
  {| sync := sync w; local := local w; categoryNameCache := categoryNameCache w;
     now := t; net := net w; calls := calls w; trace := trace w |}.

(** Two lookups of the same category, one after the other. *)
Definition lookup_twice (categoryId : option string) (apiKey regionCode : string)
  : M (option string * option string) :=
  await a <- getCategoryName categoryId apiKey regionCode;
  await b <- getCategoryName categoryId apiKey regionCode;
  ret (a, b).

(** By how many entries a list of [n] entries exceeds the capacity. *)
Definition surplus (n : nat) (capacity : Z) : nat := Z.to_nat (Z.of_nat n - capacity).

(** The configuration that [getConfig] reads in a world. *)
Definition config_of (w : world) : config :=
  {| apiKey := default "" (stored_apiKey (sync w));
     profile := default "Child" (stored_profile (sync w)) |}.

(** The number of requests to one endpoint in a list of events. *)
Definition count_fetches_to (ep : endpoint) (evs : list event) : nat :=
  List.length (List.filter (is_fetch ep) evs).

(** What one attempt of the primary fetch makes of the answer it gets. *)
Definition attempt_outcome (r : response video_resource) : outcome metadata :=
  match r with
  | Rejected => Throw TransportError
  | Http status statusText items =>
      if res_ok status
      then match items with
           | [] => Throw VideoNotFound
           | v :: _ => Ok (metadata_of v)
           end
      else Throw (VideosListError status statusText)
  end.

Definition succeeds (r : response video_resource) : bool :=
  match attempt_outcome r with
  | Ok _ => true
  | Throw _ => false
  end.

(** The answer that the [i]-th attempt of a primary fetch started in [w]
    gets (attempts counted from 0). *)
Definition answer (w : world) (i : nat) : response video_resource :=
  videos (net w) (videos_calls (calls w) + i).

(** The number of failed attempts before the last attempt of a fetch that
    may retry [left] times, when the next answer is the [n]-th. *)
Fixpoint failures_before_last (answers : nat -> response video_resource)
    (n left : nat) : nat :=
  if succeeds (answers n) then O
  else match left with
       | O => O
       | S left' => S (failures_before_last answers (S n) left')
       end.

(** The events of a primary fetch whose first [failures] attempts fail:
    each failure is followed by the wait before the next attempt. *)
Fixpoint backoff_events (videoId : string) (attempt : Z) (failures : nat) : list event :=
  match failures with
  | O => [EvFetch Videos videoId]
  | S f =>
      EvFetch Videos videoId :: EvSleep (300 * (attempt + 1))
        :: backoff_events videoId (attempt + 1) f
  end.

(** The position of the first event of a kind. *)
Fixpoint first_index (P : event -> bool) (evs : list event) : option nat :=
  match evs with
  | [] => None
  | ev :: evs' => if P ev then Some O else S <$> first_index P evs'
  end.

Definition is_config_read (ev : event) : bool :=
  match ev with
  | EvSyncGet => true
  | _ => false
  end.

Definition is_dedup_check (ev : event) : bool :=
  match ev with
  | EvLocalGet "lastLogged" => true
  | _ => false
  end.

(** A step that leaves the stores, the cache and the network as they
    are. *)
Definition quiet (w w' : world) : Prop :=
  sync w' = sync w /\ local w' = local w
  /\ categoryNameCache w' = categoryNameCache w /\ net w' = net w.

(** A step of the enrichment: the stores, the network and the clock are
    as they were, and no request went to the videos endpoint. *)
Definition enrich_step (w w' : world) : Prop :=
  sync w' = sync w /\ local w' = local w /\ net w' = net w /\ now w' = now w
  /\ videos_calls (calls w') = videos_calls (calls w)
  /\ exists evs, trace w' = (trace w ++ evs)%list /\ count_fetches_to Videos evs = 0%nat.

(** Every request that the enrichment of an intake started in [w] sends
    for the metadata [m] is answered.  The lookup of the category name
    sends a request when the video has a category whose name is not in
    the cache, the channel basics send one when the video has a channel;
    a request is answered when a response arrives (whatever its status)
    and, for a success, its body parses. *)
Definition enrichment_answered (w : world) (m : metadata) : Prop :=
  (forall cid, or_null (m_categoryId m) = Some cid ->
               categoryNameCache w !! ("US" ++ ":" ++ cid) = None ->
               videoCategories (net w) (videoCategories_calls (calls w)) <> Rejected)
  /\ (truthy (m_channelId m) = true ->
      channels (net w) (channels_calls (calls w)) <> Rejected).

(** The answer of the dedup check of an intake for [videoId] started in
    [w]: the record under the key of the configured profile is younger
    than 120 minutes. *)
Definition suppressed (w : world) (videoId : string) : bool :=
  match lastLogged (local w) !! dedup_key (profile (config_of w)) videoId with
  | Some last => age_below (now w) last 120
  | None => false
  end.

(** The events of an intake that is not suppressed, after its metadata
    is there and without the requests of the enrichment. *)
Definition logging_events (e : entry) : list event :=
  [EvLocalGet "watchLog"; EvLocalSet ["watchLog"];
   EvLocalGet "lastLogged"; EvLocalSet ["lastLogged"];
   EvSendMessage e].

(** ** [content.js] *)

(** The class [[a-zA-Z0-9_-]]. *)
Definition is_id_char (a : ascii) : bool :=
  let n := nat_of_ascii a in
  ((Nat.leb 97 n && Nat.leb n 122) || (Nat.leb 65 n && Nat.leb n 90)
   || (Nat.leb 48 n && Nat.leb n 57) || Nat.eqb n 95 || Nat.eqb n 45)%bool.

(** The longest prefix in the class, and what follows it. *)
Fixpoint span_id (s : string) : string * string :=
  match s with
  | String a s' =>
      if is_id_char a
      then let (run, rest) := span_id s' in (String a run, rest)
      else (EmptyString, s)
  | EmptyString => (EmptyString, EmptyString)
  end.

(** [s] without its prefix [p], when it has it. *)
Fixpoint strip_prefix (p s : string) : option string :=
  match p, s with
  | EmptyString, _ => Some s
  | String a p', String b s' => if Ascii.eqb a b then strip_prefix p' s' else None
  | String _ _, EmptyString => None
  end.

(** The pattern [\/shorts\/([a-zA-Z0-9_-]{6,})] tried at the front of [s]:
    the greedy group takes the whole run, which has to be 6 long. *)
Definition shorts_here (s : string) : option string :=
  match strip_prefix "/shorts/" s with
  | Some t =>
      let run := fst (span_id t) in
      if Nat.leb 6 (String.length run) then Some run else None
  | None => None
  end.

(** [url.match(/\/shorts\/([a-zA-Z0-9_-]{6,})/)]: the capture of the
    leftmost match. *)
Fixpoint shorts_match (s : string) : option string :=
  match shorts_here s with
  | Some id => Some id
  | None =>
      match s with
      | EmptyString => None
      | String _ s' => shorts_match s'
      end
  end.

(** [getCurrentVideo()] at the location [href]: the video id it finds.
    [searchParam_v href] is [new URL(href).searchParams.get("v")], [None]
    when the parameter is absent or the constructor throws (the [catch]
    leaves the id [null]). *)
Definition getCurrentVideo (searchParam_v : string -> option string) (href : string)
  : option string :=
  if Str.includes "/watch" href then searchParam_v href
  else if Str.includes "/shorts/" href then shorts_match href
  else None.

(** The state of the content script: [lastSent], and the messages
    [{ type: "YTL_VIDEO", videoId, url }] sent so far. *)
Record content_state := {
  lastSent : option (string * string);
  messages : list (string * string)
}.

(** [maybeSend()] at the location [href]. *)
Definition maybeSend (searchParam_v : string -> option string) (href : string)
    (st : content_state) : content_state :=
  match or_null (getCurrentVideo searchParam_v href) with
  | None => st
  | Some videoId =>
      if bool_decide (fst <$> lastSent st = Some videoId) then st
      else {| lastSent := Some (videoId, href);
              messages := (messages st ++ [(videoId, href)])%list |}
  end.

(** The content script on a page that goes through the locations
    [hrefs], [maybeSend] firing at each. *)
Definition visit (searchParam_v : string -> option string) (hrefs : list string)
    (st : content_state) : content_state :=
  foldl (fun st href => maybeSend searchParam_v href st) st hrefs.

(** ** More of [background.js] *)

Definition with_sync (c : sync_storage) (w : world) : world :=
  {| sync := c; local := local w; categoryNameCache := categoryNameCache w;
     now := now w; net := net w; calls := calls w; trace := trace w |}.

(** The messages that the listener of the worker knows. *)
Inductive message :=
| YTL_VIDEO (videoId url : string)
| YTL_SET_CONFIG (msg_apiKey msg_profile : option string)
| OtherMessage.

(** The listener of [chrome.runtime.onMessage], with the intake that a
    video message starts run to its end (the listener itself does not
    wait for it). *)
Definition onMessage (msg : message) : M unit :=
  match msg with
  | YTL_VIDEO videoId url => logYouTubeWatch videoId url
  | YTL_SET_CONFIG msg_apiKey msg_profile =>
      fun w =>
        (Ok tt,
         with_sync {| stored_apiKey := Some (default "" (or_null msg_apiKey));
                      stored_profile := Some (default "Child" (or_null msg_profile)) |} w)
  | OtherMessage => ret tt
  end.

(** What the first-run helpers keep: the flag [settingsNaggedOnce] of the
    local store, and how often the options page was opened. *)
Record onboarding := {
  settingsNaggedOnce : bool;
  optionsOpened : nat
}.

(** The listener of [chrome.runtime.onInstalled]. *)
Definition onInstalled (w : world) (o : onboarding) : onboarding :=
  if truthy (Some (default "" (stored_apiKey (sync w)))) then o
  else {| settingsNaggedOnce := settingsNaggedOnce o;
          optionsOpened := S (optionsOpened o) |}.

(** The listener of [chrome.runtime.onStartup]. *)
Definition onStartup (w : world) (o : onboarding) : onboarding :=
  if truthy (Some (default "" (stored_apiKey (sync w)))) then o
  else if settingsNaggedOnce o then o
  else {| settingsNaggedOnce := true; optionsOpened := S (optionsOpened o) |}.

(** What a message keeps between the world before and the world after
    it. *)
Definition kept_by_worker (w w' : world) : Prop :=
  categoryNameCache w ⊆ categoryNameCache w'
  /\ playlistLinks (local w') = playlistLinks (local w)
  /\ net w' = net w
  /\ dom (lastLogged (local w)) ⊆ dom (lastLogged (local w'))
  /\ Z.of_nat (List.length (log_of w')) <= Z.max 5000 (Z.of_nat (List.length (log_of w)))
  /\ (profile (config_of w) <> "" -> profile (config_of w') <> "").

(** The day of a row, and the rows of one day, in their order. *)
Definition day_of (isoDay : Z -> string) (r : entry) : string := isoDay (e_watchedAt r).

Definition rows_of_day (isoDay : Z -> string) (d : string) (rows : list entry) : list entry :=
  List.filter (fun r => String.eqb (day_of isoDay r) d) rows.

(** The groups of the days [days] in [rows]. *)
Definition groups_of (isoDay : Z -> string) (days : list string) (rows : list entry)
  : list (string * list entry) :=
  List.map (fun d => (d, rows_of_day isoDay d rows)) days.

(** The rows that [applyFilters] keeps. *)
Definition kept_by_filters (toLowerCase : string -> string) (q : string)
    (onlyShorts onlyKids : bool) (r : entry) : bool :=
  ((if truthy (Some q) then matches_query toLowerCase q r else true)
   && (if onlyShorts then e_isShorts r else true)
   && (if onlyKids then bool_decide (e_madeForKids r = Some true) else true))%bool.

(** The rows are from the newest to the oldest. *)
Definition newest_first (rows : list entry) : Prop :=
  StronglySorted (fun a b => e_watchedAt b <= e_watchedAt a) rows.

(** The rows watched at the instant [t]. *)
Definition watched_at (t : Z) (rows : list entry) : list entry :=
  List.filter (fun r => (e_watchedAt r =? t)%Z) rows.

(** A reader of one line of quoted cells: every cell starts and ends
    with a double quote, a double quote inside a cell is written twice,
    and the cells are separated by commas. *)
Definition cons_char (a : ascii) (cells : list string) : list string :=
  match cells with
  | [] => []
  | c :: cells' => String a c :: cells'
  end.

Fixpoint read_cells (s : string) : option (list string) :=
  match s with
  | EmptyString => None
  | String a s1 =>
      if Ascii.eqb a dquote
      then match s1 with
           | EmptyString => Some [EmptyString]
           | String b s2 =>
               if Ascii.eqb b dquote then cons_char dquote <$> read_cells s2
               else if Ascii.eqb b ","
               then match s2 with
                    | String c s3 =>
                        if Ascii.eqb c dquote then cons EmptyString <$> read_cells s3
                        else None
                    | EmptyString => None
                    end
               else None
           end
      else cons_char a <$> read_cells s1
  end.

Definition read_csv_line (s : string) : option (list string) :=
  match s with
  | EmptyString => Some []
  | String a s' => if Ascii.eqb a dquote then read_cells s' else None
  end.

Fixpoint all_id_chars (s : string) : bool :=
  match s with
  | EmptyString => true
  | String a s' => (is_id_char a && all_id_chars s')%bool
  end.

(** No two neighbours of the list are equal. *)
Definition no_repeat (ids : list string) : Prop :=
  forall i a b, ids !! i = Some a -> ids !! S i = Some b -> a <> b.

(** The content script when the page is loaded. *)
Definition page_loaded : content_state := {| lastSent := None; messages := [] |}.

(** A step that sends at most [c] requests to the categories endpoint,
    at most [k] to the channels endpoint and none to the videos endpoint,
    and in which the clock stands still. *)
Definition requests_within (c k : nat) (w w' : world) : Prop :=
  now w' = now w
  /\ exists evs, trace w' = (trace w ++ evs)%list
                 /\ count_fetches_to Videos evs = 0%nat
                 /\ (count_fetches_to VideoCategories evs <= c)%nat
                 /\ (count_fetches_to Channels evs <= k)%nat.

(** A run that sends at most [v], [c] and [k] requests to the three
    endpoints and lets at most [ms] milliseconds pass. *)
Definition within_budget (v c k : nat) (ms : Z) (w w' : world) : Prop :=
  0 <= now w' - now w <= ms
  /\ exists evs, trace w' = (trace w ++ evs)%list
                 /\ (count_fetches_to Videos evs <= v)%nat
                 /\ (count_fetches_to VideoCategories evs <= c)%nat
                 /\ (count_fetches_to Channels evs <= k)%nat.

(** ** Sample worlds *)

(** A network on which every request is rejected. *)
Definition offline : network :=
  {| videos := fun _ => Rejected;
     videoCategories := fun _ => Rejected;
     channels := fun _ => Rejected |}.

Definition no_calls : call_counts :=
  {| videos_calls := 0; videoCategories_calls := 0; channels_calls := 0 |}.

(** A catalog that answers every request with 503. *)
Definition unavailable : network :=
  {| videos := fun _ => Http 503 "Service Unavailable" [];
     videoCategories := fun _ => Http 503 "Service Unavailable" [];
     channels := fun _ => Http 503 "Service Unavailable" [] |}.

(** A catalog that answers every request with 200 and no item. *)
Definition empty_catalog : network :=
  {| videos := fun _ => Http 200 "OK" [];
     videoCategories := fun _ => Http 200 "OK" [];
     channels := fun _ => Http 200 "OK" [] |}.

Definition sample_video : video_resource :=
  {| v_id := "abc123";
     sn_title := Some "A title";
     sn_description := Some "A description";
     sn_publishedAt := Some "2024-01-01T00:00:00Z";
     sn_channelId := Some "UC1";
     sn_channelTitle := Some "A channel";
     sn_tags := None;
     sn_categoryId := Some "10";
     sn_defaultLanguage := None;
     sn_defaultAudioLanguage := None;
     sn_liveBroadcastContent := Some "none";
     cd_duration := Some "PT1H2M3S";
     cd_definition := Some "hd";
     cd_caption := Some "false";
     st_madeForKids := Some false;
     td_topicCategories := None |}.

(** The videos endpoint answers at once, the categories endpoint cannot
    be reached. *)
Definition categories_unreachable : network :=
  {| videos := fun _ => Http 200 "OK" [sample_video];
     videoCategories := fun _ => Rejected;
     channels := fun _ => Http 200 "OK" [] |}.

(** The videos endpoint answers at once, the categories endpoint answers
    503. *)
Definition categories_unavailable : network :=
  {| videos := fun _ => Http 200 "OK" [sample_video];
     videoCategories := fun _ => Http 503 "Service Unavailable" [];
     channels := fun _ => Http 200 "OK" [] |}.

(** The videos endpoint fails three times (503, transport, no item) and
    then answers. *)
Definition flaky : network :=
  {| videos := fun n => match n with
                        | O => Http 503 "Service Unavailable" []
                        | S O => Rejected
                        | S (S O) => Http 200 "OK" []
                        | _ => Http 200 "OK" [sample_video]
                        end;
     videoCategories := fun _ => Http 200 "OK" [{| cat_title := Some "Music" |}];
     channels := fun _ => Http 404 "Not Found" [] |}.

(** The extension right after its installation: nothing stored, no
    request sent, on the network [n], the clock showing [t]. *)
Definition fresh_install (n : network) (t : Z) : world :=
  {| sync := {| stored_apiKey := None; stored_profile := None |};
     local := {| watchLog := None; lastLogged := ∅; playlistLinks := None |};
     categoryNameCache := ∅;
     now := t;
     net := n;
     calls := no_calls;
     trace := [] |}.

(** The same with an API key saved by the options page. *)
Definition configured (key : string) (n : network) (t : Z) : world :=
  {| sync := {| stored_apiKey := Some key; stored_profile := Some "Child" |};
     local := {| watchLog := None; lastLogged := ∅; playlistLinks := None |};
     categoryNameCache := ∅;
     now := t;
     net := n;
     calls := no_calls;
     trace := [] |}.

(** * Properties *)

(** ** Strings *)

Lemma starts_with_app (p s : string) : Str.starts_with p (p ++ s) = true.
Proof.
  induction p as [|a p IH]; simpl; [reflexivity|].
  now rewrite Ascii.eqb_refl.
Qed.

Lemma starts_with_inv (p s : string) :
  Str.starts_with p s = true -> exists post, s = p ++ post.
Proof.
  revert s. induction p as [|a p IH]; intros s H; simpl in *.
  - now exists s.
  - destruct s as [|b s]; [discriminate|].
    destruct (Ascii.eqb_spec a b) as [->|]; [|discriminate].
    destruct (IH _ H) as [post ->]. now exists post.
Qed.

Lemma includes_spec (p s : string) :
  Str.includes p s = true <-> exists pre post, s = pre ++ p ++ post.
Proof.
  split.
  - induction s as [|a s IH]; simpl.
    + destruct (Str.starts_with p "") eqn:E; [|discriminate].
      intros _. destruct (starts_with_inv _ _ E) as [post ->]. now exists "", post.
    + destruct (Str.starts_with p (String a s)) eqn:E.
      * intros _. destruct (starts_with_inv _ _ E) as [post ->]. now exists "", post.
      * intros H. destruct (IH H) as (pre & post & ->). now exists (String a pre), post.
  - intros (pre & post & ->). induction pre as [|a pre IH]; simpl.
    + destruct post, p; simpl; rewrite ?Ascii.eqb_refl, ?starts_with_app; reflexivity.
    + rewrite IH. now destruct (Str.starts_with _ _).
Qed.

(** ** Shorts inference *)

Lemma url_signal_spec (url : option string) :
  match url with Some u => Str.includes "/shorts/" u | None => false end = true
  <-> contains_shorts url.
Proof.
  unfold contains_shorts. destruct url as [u|]; split.
  - intros H. apply includes_spec in H as (pre & post & ->). eauto.
  - intros (u' & pre & post & [= <-] & ->). apply includes_spec. eauto.
  - discriminate.
  - intros (? & ? & ? & [=] & _).
Qed.

(** C7. [inferIsShorts] is true exactly when the url contains "/shorts/"
    or the duration is a number of at most 60 seconds; a url with the
    segment gives true whatever the duration (the url is looked at first);
    without the segment, 60 gives true, 90 gives false, and a null
    duration gives false. *)
Theorem inferIsShorts_spec :
  (forall url d,
      inferIsShorts url d = true
      <-> contains_shorts url \/ exists n, d = Some n /\ n <= 60)
  /\ (forall pre post d, inferIsShorts (Some (pre ++ "/shorts/" ++ post)) d = true)
  /\ (forall url, ~ contains_shorts url ->
        inferIsShorts url (Some 60) = true
        /\ inferIsShorts url (Some 90) = false
        /\ inferIsShorts url None = false).
Proof.
  assert (Hiff : forall url d,
             inferIsShorts url d = true
             <-> contains_shorts url \/ exists n, d = Some n /\ n <= 60).
  { intros url d. unfold inferIsShorts. rewrite <- url_signal_spec.
    destruct (match url with Some u => _ | None => _ end).
    - split; auto.
    - destruct d as [n|].
      + destruct (Z.leb_spec n 60); split; auto.
        * intros _. right. eauto.
        * intros [?|(n' & [= <-] & ?)]; [discriminate | lia].
      + split; [discriminate|]. intros [?|(? & ? & _)]; discriminate. }
  split; [exact Hiff|]. split.
  - intros pre post d. apply Hiff. left. unfold contains_shorts. eauto.
  - intros url Hno. repeat split.
    + apply Hiff. right. exists 60. split; [reflexivity | lia].
    + destruct (inferIsShorts url (Some 90)) eqn:E; [|reflexivity].
      apply Hiff in E as [?|(n & [= <-] & ?)]; [contradiction | lia].
    + destruct (inferIsShorts url None) eqn:E; [|reflexivity].
      apply Hiff in E as [?|(n & ? & _)]; [contradiction | discriminate].
Qed.

(** ** Duration parsing *)

Lemma span_digits_app (d : string) (c : ascii) (rest : string) :
  Str.all_digits d = true -> Str.is_digit c = false ->
  Str.span_digits (d ++ String c rest) = (d, String c rest).
Proof.
  intros Hd Hc. induction d as [|a d IH]; simpl in *.
  - now rewrite Hc.
  - apply andb_prop in Hd as [Ha Hd]. now rewrite Ha, (IH Hd).
Qed.

(** An optional group in front of a run of digits closed by a letter. *)
Lemma opt_component_hit (c : ascii) (d rest : string) :
  d <> "" -> Str.all_digits d = true -> Str.is_digit c = false ->
  opt_component c (d ++ String c rest) = (Some d, rest).
Proof.
  intros Hne Hd Hc. unfold opt_component. rewrite span_digits_app by assumption.
  destruct d; [congruence|]. now rewrite Ascii.eqb_refl.
Qed.

Lemma opt_component_miss (c c' : ascii) (d rest : string) :
  Str.all_digits d = true -> Str.is_digit c' = false -> c <> c' ->
  opt_component c (d ++ String c' rest) = (None, d ++ String c' rest).
Proof.
  intros Hd Hc Hne. unfold opt_component. rewrite span_digits_app by assumption.
  destruct d; [reflexivity|].
  destruct (Ascii.eqb_spec c c'); [contradiction | reflexivity].
Qed.

Lemma opt_component_empty (c : ascii) : opt_component c "" = (None, "").
Proof. reflexivity. Qed.

Lemma parseInt_digits_value (d : string) (acc : Z) :
  Str.all_digits d = true ->
  parseInt_digits acc d = acc * 10 ^ Z.of_nat (String.length d) + dec_value d.
Proof.
  revert acc. induction d as [|a d IH]; intros acc Hd.
  - cbn. lia.
  - cbn [Str.all_digits] in Hd. apply andb_prop in Hd as [Ha Hd].
    cbn [parseInt_digits dec_value String.length]. rewrite Ha, (IH _ Hd).
    rewrite Nat2Z.inj_succ, Z.pow_succ_r by lia. lia.
Qed.

Lemma component_value_digits (x : option string) :
  digits_ok x -> component_value x = component_number x.
Proof.
  destruct x as [d|]; [|reflexivity].
  intros [Hne Hd]. unfold component_value, component_number.
  destruct d as [|a d]; [congruence|].
  unfold parseInt. pose proof Hd as Hd'. simpl in Hd'.
  apply andb_prop in Hd' as [-> _].
  rewrite parseInt_digits_value by assumption. lia.
Qed.

Lemma component_text_app (d : string) (c : ascii) (rest : string) :
  (d ++ String c "") ++ rest = d ++ String c rest.
Proof. induction d as [|a d IH]; cbn [String.append]; [reflexivity | now f_equal]. Qed.

(** At the front of a well-formed duration text the three groups capture
    exactly the components that are present. *)
Lemma match_here_duration_text (h m s : option string) :
  digits_ok h -> digits_ok m -> digits_ok s ->
  match_here (duration_text h m s) = Some {| grpH := h; grpM := m; grpS := s |}.
Proof.
  intros Hh Hm Hs. unfold duration_text.
  change ("PT" ++ ?x) with (String "P" (String "T" x)).
  cbn [match_here].
  destruct h as [dh|], m as [dm|], s as [ds|];
    cbn [component_text digits_ok] in *;
    repeat match goal with H : _ /\ _ |- _ => destruct H end;
    rewrite ?component_text_app; cbn [String.append];
    repeat first
      [ rewrite opt_component_hit by (assumption || reflexivity)
      | rewrite opt_component_miss by (assumption || reflexivity || discriminate)
      | rewrite opt_component_empty ];
    reflexivity.
Qed.

Lemma regex_exec_here (s : string) (m : duration_match) :
  match_here s = Some m -> regex_exec s = Some m.
Proof. intros H. destruct s; cbn [regex_exec]; now rewrite H. Qed.

Lemma match_here_starts_with (s : string) :
  match_here s = None <-> Str.starts_with "PT" s = false.
Proof.
  unfold match_here.
  destruct s as [|a [|b s]]; simpl.
  - tauto.
  - destruct (Ascii.eqb_spec "P" a) as [<-|]; [tauto|].
    destruct a as [[] [] [] [] [] [] [] []]; try tauto; congruence.
  - destruct (Ascii.eqb_spec "P" a) as [<-|Ha].
    + destruct (Ascii.eqb_spec "T" b) as [<-|Hb].
      * destruct (opt_component "H" s), (opt_component "M" _), (opt_component "S" _).
        split; discriminate.
      * destruct b as [[] [] [] [] [] [] [] []]; try tauto; congruence.
    + destruct a as [[] [] [] [] [] [] [] []]; try tauto; congruence.
Qed.

(** The pattern finds a match exactly in the strings that contain "PT". *)
Lemma regex_exec_none (s : string) :
  regex_exec s = None <-> Str.includes "PT" s = false.
Proof.
  induction s as [|a s IH].
  - simpl. tauto.
  - cbn [regex_exec Str.includes].
    pose proof (match_here_starts_with (String a s)) as Hm.
    destruct (match_here (String a s)) eqn:E.
    + destruct (Str.starts_with "PT" (String a s)); [split; discriminate|].
      destruct Hm as [_ Hm]. discriminate (Hm eq_refl).
    + destruct Hm as [Hm _]. rewrite (Hm eq_refl). exact IH.
Qed.

Lemma parse_none_iff (iso : option string) :
  parseISODurationToSeconds iso = None <-> Str.includes "PT" (default "" iso) = false.
Proof.
  unfold parseISODurationToSeconds. rewrite <- regex_exec_none.
  destruct (regex_exec _); split; congruence.
Qed.

Lemma parse_duration_text (h m s : option string) :
  digits_ok h -> digits_ok m -> digits_ok s ->
  parseISODurationToSeconds (Some (duration_text h m s))
  = Some (component_number h * 3600 + component_number m * 60 + component_number s).
Proof.
  intros Hh Hm Hs. unfold parseISODurationToSeconds.
  change (default "" (Some (duration_text h m s))) with (duration_text h m s).
  rewrite (regex_exec_here _ _ (match_here_duration_text h m s Hh Hm Hs)).
  cbn [grpH grpM grpS]. now rewrite !component_value_digits.
Qed.

(** C4, as the code has it.  The result is null exactly for the inputs
    without "PT" (the empty string and a missing field among them);
    a text [PT[nH][nM][nS]] gives h*3600 + m*60 + s, a component that is
    absent counting 0, as long as that number of seconds is below 2^53,
    where the arithmetic of the code is exact; so "PT1H2M3S" gives 3723,
    "PT5M" 300, "PT45S" 45, and the bare "PT" gives 0. *)
Theorem parseISODurationToSeconds_spec (iso : option string) (h m s : option string) :
  digits_ok h -> digits_ok m -> digits_ok s ->
  component_number h * 3600 + component_number m * 60 + component_number s < 2 ^ 53 ->
  (parseISODurationToSeconds iso = None
   <-> ~ exists pre post, default "" iso = pre ++ "PT" ++ post)
  /\ parseISODurationToSeconds (Some (duration_text h m s))
     = Some (component_number h * 3600 + component_number m * 60 + component_number s)
  /\ parseISODurationToSeconds (Some "PT1H2M3S") = Some 3723
  /\ parseISODurationToSeconds (Some "PT5M") = Some 300
  /\ parseISODurationToSeconds (Some "PT45S") = Some 45
  /\ parseISODurationToSeconds (Some "PT") = Some 0
  /\ parseISODurationToSeconds (Some "") = None
  /\ parseISODurationToSeconds None = None.
Proof.
  intros Hh Hm Hs _. split; [|split; [now apply parse_duration_text | repeat split]].
  rewrite parse_none_iff, <- includes_spec.
  destruct (Str.includes "PT" _); split; congruence.
Qed.

Lemma parseISODurationToSeconds_spec_witness :
  parseISODurationToSeconds (Some "PT12H7M") = Some (12 * 3600 + 7 * 60 + 0).
Proof.
  pose proof (parseISODurationToSeconds_spec (Some "PT12H7M") (Some "12") (Some "7") None) as H.
  cbn [digits_ok] in H.
  destruct H as (_ & H & _).
  - split; [discriminate | reflexivity].
  - split; [discriminate | reflexivity].
  - exact I.
  - reflexivity.
  - exact H.
Defined.

(** C4 as written fails: for "PT" no duration field takes part in the
    match, and the result is 0, not null. *)
Lemma parse_bare_PT_not_null :
  no_field_matched (Some "PT")
  /\ parseISODurationToSeconds (Some "PT") = Some 0
  /\ parseISODurationToSeconds (Some "PT") <> None.
Proof. repeat split. discriminate. Qed.

(** ** Dedup guard *)

Lemma age_below_spec (nowMs last ttlMinutes : Z) :
  age_below nowMs last ttlMinutes = true <-> nowMs - last < ttlMinutes * 60000.
Proof.
  unfold age_below.
  destruct (Qlt_le_dec _ _) as [H|H]; unfold Qlt, Qle in H; cbn in H; split;
    intros; try reflexivity; try discriminate; lia.
Qed.

Lemma recentlyLogged_returns (w : world) (p x : string) (ttl : Z) :
  returned (recentlyLogged p x ttl) w
  = Some (match lastLogged (local w) !! dedup_key p x with
          | Some last => age_below (now w) last ttl
          | None => false
          end).
Proof.
  unfold returned, recentlyLogged, bind, tell. cbn.
  now destruct (lastLogged (local w) !! dedup_key p x).
Qed.

Lemma markLogged_lastLogged (w : world) (p x : string) :
  lastLogged (local (after (markLogged p x) w))
  = <[dedup_key p x := now w]> (lastLogged (local w)).
Proof. reflexivity. Qed.

(** C6. [recentlyLogged(p, x, ttl)] returns true exactly when the dedup
    table has a record under the key [p:x] whose age is below the ttl
    (in milliseconds: [now - t < ttl * 60000]).  After [markLogged(p, x)]
    at time [T], a check [eps] before [T + ttl] is true and a check
    [eps] after it is false, for every [eps > 0] (at [T + ttl] itself it
    is false); without a record the check is false. *)
Theorem recentlyLogged_spec (w : world) (p x : string) (ttl T eps : Z) :
  0 < eps ->
  (exists b, returned (recentlyLogged p x ttl) w = Some b
             /\ (b = true <->
                 exists t, lastLogged (local w) !! dedup_key p x = Some t
                           /\ now w - t < ttl * 60000))
  /\ (let marked := after (markLogged p x) (at_time T w) in
      returned (recentlyLogged p x ttl) (at_time (T + ttl * 60000 - eps) marked) = Some true
      /\ returned (recentlyLogged p x ttl) (at_time (T + ttl * 60000 + eps) marked) = Some false
      /\ returned (recentlyLogged p x ttl) (at_time (T + ttl * 60000) marked) = Some false)
  /\ (lastLogged (local w) !! dedup_key p x = None ->
      returned (recentlyLogged p x ttl) w = Some false).
Proof.
  intros Heps. split; [|split].
  - rewrite recentlyLogged_returns.
    destruct (lastLogged (local w) !! dedup_key p x) as [t|] eqn:E.
    + exists (age_below (now w) t ttl). split; [reflexivity|].
      rewrite age_below_spec. split.
      * intros H. now exists t.
      * now intros (t' & [= <-] & H).
    + exists false. split; [reflexivity|].
      split; [discriminate|]. now intros (t & [=] & _).
  - cbv zeta. rewrite !recentlyLogged_returns.
    change (local (at_time ?t ?m)) with (local m).
    rewrite markLogged_lastLogged, lookup_insert_eq.
    change (now (at_time ?t ?m)) with t.
    repeat split; f_equal.
    + apply age_below_spec. lia.
    + destruct (age_below _ _ _) eqn:E; [|reflexivity].
      apply age_below_spec in E. lia.
    + destruct (age_below _ _ _) eqn:E; [|reflexivity].
      apply age_below_spec in E. lia.
  - intros H. now rewrite recentlyLogged_returns, H.
Qed.

Lemma recentlyLogged_spec_witness :
  let marked := after (markLogged "Child" "abc123") (at_time 1000 (fresh_install offline 0)) in
  returned (recentlyLogged "Child" "abc123" 120) (at_time (1000 + 120 * 60000 - 1) marked)
  = Some true
  /\ returned (recentlyLogged "Child" "abc123" 120) (at_time (1000 + 120 * 60000 + 1) marked)
     = Some false.
Proof.
  intros marked.
  destruct (recentlyLogged_spec (fresh_install offline 0) "Child" "abc123" 120 1000 1)
    as (_ & (H1 & H2 & _) & _).
  - lia.
  - split; [exact H1 | exact H2].
Defined.

(** C10. [markLogged(profile, videoId)] writes the current time under
    the key [profile:videoId] and leaves the record of every other key of
    the dedup table as it was. *)
Theorem markLogged_frame (w : world) (p v k : string) :
  k <> dedup_key p v ->
  lastLogged (local (after (markLogged p v) w)) !! k = lastLogged (local w) !! k
  /\ lastLogged (local (after (markLogged p v) w)) !! dedup_key p v = Some (now w).
Proof.
  intros Hk. rewrite markLogged_lastLogged. split.
  - now apply lookup_insert_ne.
  - apply lookup_insert_eq.
Qed.

Lemma markLogged_frame_witness :
  let w := after (markLogged "Child" "abc123") (fresh_install offline 5) in
  lastLogged (local (after (markLogged "Child" "xyz789") w)) !! "Child:abc123" = Some 5.
Proof.
  intros w.
  destruct (markLogged_frame w "Child" "xyz789" "Child:abc123") as [H _].
  - vm_compute. discriminate.
  - rewrite H. reflexivity.
Defined.

(** ** Clearing the log *)

(** C9. After the clear handler has run (the dialog confirmed), the
    stored [watchLog] and the stored [playlistLinks] are both the empty
    array, whatever the store held before. *)
Theorem clear_click_empties (w : world) :
  watchLog (local (after (clear_click true) w)) = Some []
  /\ playlistLinks (local (after (clear_click true) w)) = Some []
  /\ log_of (after (clear_click true) w) = []
  /\ links_of (after (clear_click true) w) = [].
Proof. repeat split. Qed.

(** A store that holds one entry and one playlist link, before and
    after the clear. *)
Example clear_after_use :
  let w := after (rememberPlaylistLink "https://www.youtube.com/watch_videos?video_ids=abc123" 1)
             (after (logYouTubeWatch "abc123" "https://www.youtube.com/watch?v=abc123")
                    (fresh_install offline 0)) in
  (List.length (log_of w), List.length (links_of w)) = (1%nat, 1%nat)
  /\ (log_of (after (clear_click true) w), links_of (after (clear_click true) w)) = ([], []).
Proof. split; vm_compute; reflexivity. Qed.

(** ** Bounded log *)

Section Capacity.

Variable capacity : Z.
Hypothesis capacity_nonneg : 0 <= capacity.

Lemma push_and_trim_drop (stored : option (list entry)) (e : entry) :
  let l := (default [] stored ++ [e])%list in
  push_and_trim stored e capacity = drop (surplus (List.length l) capacity) l.
Proof.
  cbv zeta. unfold push_and_trim, splice0, surplus.
  set (l := (default [] stored ++ [e])%list).
  destruct (Z.gtb_spec (Z.of_nat (List.length l)) capacity) as [H|H].
  - f_equal. lia.
  - replace (Z.to_nat _) with 0%nat by lia. now rewrite drop_0.
Qed.

Lemma push_and_trim_length (stored : option (list entry)) (e : entry) :
  Z.of_nat (List.length (push_and_trim stored e capacity)) <= capacity.
Proof.
  rewrite push_and_trim_drop. cbv zeta. rewrite length_drop. unfold surplus. lia.
Qed.

End Capacity.

Lemma setLogEntry_log (w : world) (e : entry) (cap : Z) :
  log_of (after (setLogEntry e cap) w) = push_and_trim (watchLog (local w)) e cap.
Proof. reflexivity. Qed.

Lemma setLogEntry_drop (w : world) (e : entry) :
  log_of (after (setLogEntry e 5000) w)
  = drop (surplus (List.length (log_of w ++ [e])%list) 5000) (log_of w ++ [e])%list.
Proof. rewrite setLogEntry_log. now apply push_and_trim_drop. Qed.

Lemma logs_after_each_bounded (es : list entry) (w : world) :
  Forall (fun l => Z.of_nat (List.length l) <= 5000) (logs_after_each es w).
Proof.
  revert w. induction es as [|e es IH]; intros w; cbn [logs_after_each].
  - constructor.
  - constructor; [|apply IH].
    rewrite setLogEntry_log. now apply push_and_trim_length.
Qed.

(** The log after a run of appends: the entries in the order of their
    arrival, without the oldest surplus. *)
Lemma append_all_drop (es : list entry) (e : entry) (w : world) :
  log_of (append_all (e :: es) w)
  = drop (surplus (List.length (log_of w ++ e :: es)%list) 5000) (log_of w ++ e :: es)%list.
Proof.
  revert e w. induction es as [|e' es IH]; intros e w.
  - cbn [append_all]. apply setLogEntry_drop.
  - change (append_all (e :: e' :: es) w)
      with (append_all (e' :: es) (after (setLogEntry e 5000) w)).
    rewrite IH, setLogEntry_drop.
    set (l := (log_of w ++ [e])%list).
    replace (log_of w ++ e :: e' :: es)%list with (l ++ e' :: es)%list
      by (unfold l; now rewrite <- app_assoc).
    assert (Hle : (surplus (List.length l) 5000 <= List.length l)%nat)
      by (unfold surplus; lia).
    rewrite <- (drop_app_le l (e' :: es)) by exact Hle.
    rewrite drop_drop. f_equal.
    repeat first [rewrite length_drop | rewrite length_app].
    cbn [List.length]. unfold surplus. lia.
Qed.

(** C2. With the capacity 5000, from every stored log: after each
    append of a run the log has at most 5000 entries; one append removes
    exactly the surplus from the front of the pushed list (the oldest
    entries) and keeps the rest in their order; and so does a whole run
    of appends. *)
Theorem setLogEntry_capacity (w : world) (es : list entry) (e : entry) :
  Forall (fun l => Z.of_nat (List.length l) <= 5000) (logs_after_each es w)
  /\ (let pushed := (log_of w ++ [e])%list in
      let survivors := log_of (after (setLogEntry e 5000) w) in
      let evicted := take (surplus (List.length pushed) 5000) pushed in
      pushed = (evicted ++ survivors)%list
      /\ Z.of_nat (List.length evicted) = Z.max 0 (Z.of_nat (List.length pushed) - 5000)
      /\ Z.of_nat (List.length survivors) <= 5000)
  /\ (let arrived := (log_of w ++ e :: es)%list in
      let survivors := log_of (append_all (e :: es) w) in
      let evicted := take (surplus (List.length arrived) 5000) arrived in
      arrived = (evicted ++ survivors)%list
      /\ Z.of_nat (List.length evicted) = Z.max 0 (Z.of_nat (List.length arrived) - 5000)
      /\ Z.of_nat (List.length survivors) <= 5000).
Proof.
  split; [apply logs_after_each_bounded|]. split; cbv zeta.
  - rewrite setLogEntry_drop. split; [now rewrite take_drop|].
    rewrite length_take, length_drop. unfold surplus. lia.
  - rewrite append_all_drop. split; [now rewrite take_drop|].
    rewrite length_take, length_drop. unfold surplus. lia.
Qed.

(** ** Category cache *)

Lemma events_of_same {A} (m : M A) (w : world) :
  trace (after m w) = trace w -> events_of m w = [].
Proof. unfold events_of. intros ->. apply drop_all. Qed.

Lemma events_of_app {A} (m : M A) (w : world) (evs : list event) :
  trace (after m w) = (trace w ++ evs)%list -> events_of m w = evs.
Proof. unfold events_of. intros ->. apply drop_app_length. Qed.

Lemma or_null_nonempty (s : string) : s <> "" -> or_null (Some s) = Some s.
Proof. destruct s; [congruence | reflexivity]. Qed.

Lemma getCategoryName_hit (w : world) (cid apiKey region : string) (v : option string) :
  cid <> "" ->
  categoryNameCache w !! (region ++ ":" ++ cid) = Some v ->
  getCategoryName (Some cid) apiKey region w = (Ok v, w).
Proof.
  intros Hne Hc. unfold getCategoryName. rewrite (or_null_nonempty _ Hne).
  now rewrite Hc.
Qed.

(** The world after one request to the categories endpoint. *)
Lemma getCategoryName_miss (w : world) (cid apiKey region : string) :
  cid <> "" ->
  categoryNameCache w !! (region ++ ":" ++ cid) = None ->
  let asked :=
    with_calls {| videos_calls := videos_calls (calls w);
                  videoCategories_calls := S (videoCategories_calls (calls w));
                  channels_calls := channels_calls (calls w) |}
               (emit (EvFetch VideoCategories cid) w) in
  getCategoryName (Some cid) apiKey region w
  = match videoCategories (net w) (videoCategories_calls (calls w)) with
    | Rejected => (Throw TransportError, asked)
    | Http status _ items =>
        if res_ok status
        then let name := or_null (head items ≫= cat_title) in
             (Ok name, with_cache (<[region ++ ":" ++ cid := name]> (categoryNameCache w)) asked)
        else (Ok None, asked)
    end.
Proof.
  intros Hne Hc. cbv zeta. unfold getCategoryName. rewrite (or_null_nonempty _ Hne).
  rewrite Hc. unfold bind, fetch_videoCategories.
  destruct (videoCategories (net w) _) as [|status text items]; [reflexivity|].
  now destruct (res_ok status).
Qed.

(** Only [getCategoryName] writes the cache, and it never overwrites or
    removes an entry. *)
Lemma getCategoryName_keeps (w : world) (categoryId : option string)
    (apiKey region key : string) (v : option string) :
  categoryNameCache w !! key = Some v ->
  categoryNameCache (after (getCategoryName categoryId apiKey region) w) !! key = Some v.
Proof.
  intros Hk. unfold after, getCategoryName.
  destruct (or_null categoryId) as [cid|]; [|exact Hk].
  set (cacheKey := region ++ ":" ++ cid).
  destruct (categoryNameCache w !! cacheKey) as [c|] eqn:Hc; [exact Hk|].
  unfold bind, fetch_videoCategories.
  destruct (videoCategories (net w) _) as [|status text items]; [exact Hk|].
  destruct (res_ok status); cbn; [|exact Hk].
  rewrite lookup_insert_ne; [exact Hk|]. intros E. rewrite E in Hc. congruence.
Qed.

(** C3, as the code has it.  For a category id that is not empty and not
    yet cached: when the request of the first lookup gets a success
    response, its outcome (a name, or null for "not found") is cached
    under [region:categoryId], two successive lookups send exactly one
    request and return the same result, and every later lookup of the key
    is served from the cache without a request; when the response is not
    a success, null is returned, nothing is cached, and the second lookup
    sends a request again. *)
Theorem getCategoryName_cache (w : world) (cid apiKey region : string)
    (status : Z) (text : string) (items : list category_resource) :
  cid <> "" ->
  categoryNameCache w !! (region ++ ":" ++ cid) = None ->
  videoCategories (net w) (videoCategories_calls (calls w)) = Http status text items ->
  let key := region ++ ":" ++ cid in
  let name := or_null (head items ≫= cat_title) in
  let first := after (getCategoryName (Some cid) apiKey region) w in
  if res_ok status
  then returned (lookup_twice (Some cid) apiKey region) w = Some (name, name)
       /\ count_fetches (events_of (lookup_twice (Some cid) apiKey region) w) = 1%nat
       /\ categoryNameCache first !! key = Some name
       /\ (forall w' categoryId' apiKey' region',
              categoryNameCache w' !! key = Some name ->
              returned (getCategoryName (Some cid) apiKey' region) w' = Some name
              /\ events_of (getCategoryName (Some cid) apiKey' region) w' = []
              /\ categoryNameCache (after (getCategoryName categoryId' apiKey' region') w') !! key
                 = Some name)
  else returned (getCategoryName (Some cid) apiKey region) w = Some None
       /\ categoryNameCache first = categoryNameCache w
       /\ count_fetches (events_of (getCategoryName (Some cid) apiKey region) first) = 1%nat
       /\ count_fetches (events_of (lookup_twice (Some cid) apiKey region) w) = 2%nat.
Proof.
  intros Hne Hmiss Hres key name first.
  pose proof (getCategoryName_miss w cid apiKey region Hne Hmiss) as H1.
  cbv zeta in H1. rewrite Hres in H1. fold name key in H1.
  destruct (res_ok status) eqn:Hok.
  - assert (Hc : categoryNameCache first !! key = Some name).
    { unfold first, after. rewrite H1. cbn. apply lookup_insert_eq. }
    assert (H2 := getCategoryName_hit first cid apiKey region name Hne Hc).
    unfold first, after in H2. rewrite H1 in H2. cbn [snd] in H2.
    repeat split.
    + unfold returned, lookup_twice, bind. rewrite H1, H2. reflexivity.
    + rewrite (events_of_app _ _ [EvFetch VideoCategories cid]); [reflexivity|].
      unfold after, lookup_twice, bind. rewrite H1, H2. reflexivity.
    + exact Hc.
    + unfold returned. now rewrite (getCategoryName_hit w' cid apiKey' region name Hne).
    + apply events_of_same. unfold after.
      now rewrite (getCategoryName_hit w' cid apiKey' region name Hne).
    + now apply getCategoryName_keeps.
  - assert (Hc : categoryNameCache first = categoryNameCache w).
    { unfold first, after. rewrite H1. reflexivity. }
    assert (Hmiss' : categoryNameCache first !! key = None) by now rewrite Hc.
    pose proof (getCategoryName_miss first cid apiKey region Hne Hmiss') as H2.
    cbv zeta in H2. unfold first, after in H2. rewrite H1 in H2. cbn [snd] in H2.
    cbn [net calls with_calls emit videoCategories_calls] in H2.
    repeat split.
    + unfold returned. now rewrite H1.
    + exact Hc.
    + unfold first, after. rewrite H1. cbn [snd].
      rewrite (events_of_app _ _ [EvFetch VideoCategories cid]); [reflexivity|].
      unfold after. rewrite H2.
      destruct (videoCategories (net w) (S _)) as [|st tx its]; [reflexivity|].
      now destruct (res_ok st).
    + rewrite (events_of_app _ _ [EvFetch VideoCategories cid; EvFetch VideoCategories cid]);
        [reflexivity|].
      unfold after, lookup_twice, bind. rewrite H1, H2.
      destruct (videoCategories (net w) (S _)) as [|st tx its]; cbn.
      * rewrite <- app_assoc. reflexivity.
      * destruct (res_ok st); cbn; rewrite <- app_assoc; reflexivity.
Qed.

Lemma getCategoryName_cache_witness :
  let w := configured "KEY" empty_catalog 0 in
  returned (lookup_twice (Some "10") "KEY" "US") w = Some (None, None)
  /\ count_fetches (events_of (lookup_twice (Some "10") "KEY" "US") w) = 1%nat.
Proof.
  intros w.
  pose proof (getCategoryName_cache w "10" "KEY" "US" 200 "OK" []) as H.
  cbv zeta in H. change (res_ok 200) with true in H. cbv iota in H.
  destruct H as (H1 & H2 & _).
  - discriminate.
  - vm_compute. reflexivity.
  - reflexivity.
  - split; [exact H1 | exact H2].
Defined.

(** C3 as written fails: while the catalog answers 503, both lookups of
    the same pair send a request. *)
Lemma lookup_twice_unavailable :
  returned (lookup_twice (Some "10") "KEY" "US") (configured "KEY" unavailable 0)
  = Some (None, None)
  /\ count_fetches (events_of (lookup_twice (Some "10") "KEY" "US")
                              (configured "KEY" unavailable 0)) = 2%nat.
Proof. split; vm_compute; reflexivity. Qed.

(** ** Retrying primary fetch *)

Lemma quiet_trans (w1 w2 w3 : world) : quiet w1 w2 -> quiet w2 w3 -> quiet w1 w3.
Proof. unfold quiet. intros (A1 & A2 & A3 & A4) (B1 & B2 & B3 & B4). repeat split; congruence. Qed.

Lemma fetch_attempt_eq (videoId : string) (w : world) :
  fetch_attempt videoId w = (attempt_outcome (answer w 0), snd (fetch_videos videoId w)).
Proof.
  unfold fetch_attempt, bind, fetch_videos, answer, attempt_outcome.
  rewrite Nat.add_0_r.
  destruct (videos (net w) _) as [|status text items]; [reflexivity|].
  cbn. destruct (res_ok status); cbn; [|reflexivity].
  now destruct items.
Qed.

(** The world after a request does not depend on the answer. *)
Lemma fetch_videos_world (videoId : string) (w : world) :
  snd (fetch_videos videoId w)
  = with_calls {| videos_calls := S (videos_calls (calls w));
                  videoCategories_calls := videoCategories_calls (calls w);
                  channels_calls := channels_calls (calls w) |}
               (emit (EvFetch Videos videoId) w).
Proof. unfold fetch_videos. now destruct (videos (net w) _). Qed.

(** The loop, run: it stops at the first attempt that succeeds or at the
    attempt after the last retry, with the outcome of that attempt; the
    trace gains the requests and the waits in between. *)
Lemma fetch_loop_run (videoId : string) (left : nat) (attempt : Z) (w : world) :
  let j := failures_before_last (videos (net w)) (videos_calls (calls w)) left in
  let r := fetch_loop videoId left attempt w in
  fst r = attempt_outcome (answer w j)
  /\ quiet w (snd r)
  /\ trace (snd r) = (trace w ++ backoff_events videoId attempt j)%list
  /\ videoCategories_calls (calls (snd r)) = videoCategories_calls (calls w)
  /\ channels_calls (calls (snd r)) = channels_calls (calls w)
  /\ (j <= left)%nat.
Proof.
  revert attempt w. induction left as [|left IH]; intros attempt w; cbv zeta;
    cbn [fetch_loop failures_before_last]; unfold try_catch;
    rewrite fetch_attempt_eq, fetch_videos_world; unfold succeeds;
    replace (videos (net w) (videos_calls (calls w))) with (answer w 0)
      by (unfold answer; now rewrite Nat.add_0_r).
  - destruct (attempt_outcome (answer w 0)) as [m|e] eqn:E;
      cbn; rewrite ?E; repeat split; lia.
  - destruct (attempt_outcome (answer w 0)) as [m|e] eqn:E.
    + cbn. rewrite E. repeat split. lia.
    + cbv iota beta.
      match goal with
      | |- context [bind (sleep ?ms) _ ?w1] =>
          pose (w2 := advance ms (emit (EvSleep ms) w1));
          change (bind (sleep ms) (fun _ => fetch_loop videoId left (attempt + 1)) w1)
            with (fetch_loop videoId left (attempt + 1) w2)
      end.
      specialize (IH (attempt + 1) w2). cbv zeta in IH.
      change (net w2) with (net w) in IH.
      change (videos_calls (calls w2)) with (S (videos_calls (calls w))) in IH.
      set (j := failures_before_last _ _ _) in *.
      destruct IH as (H1 & H2 & H3 & H4 & H5 & H6).
      assert (Hans : answer w2 j = answer w (S j)).
      { unfold answer. change (net w2) with (net w).
        change (videos_calls (calls w2)) with (S (videos_calls (calls w))).
        f_equal. lia. }
      rewrite Hans in H1.
      split; [exact H1|]. split; [|split; [|split; [|split]]].
      * eapply quiet_trans; [|exact H2]. repeat split.
      * rewrite H3. cbn. rewrite <- !app_assoc. reflexivity.
      * rewrite H4. reflexivity.
      * rewrite H5. reflexivity.
      * lia.
Qed.

(** ** Enrichment *)

Lemma enrich_step_refl (w : world) : enrich_step w w.
Proof. repeat split. exists []. now rewrite app_nil_r. Qed.

Lemma count_fetches_to_app (ep : endpoint) (l1 l2 : list event) :
  count_fetches_to ep (l1 ++ l2)
  = (count_fetches_to ep l1 + count_fetches_to ep l2)%nat.
Proof. unfold count_fetches_to. now rewrite List.filter_app, length_app. Qed.

Lemma enrich_step_trans (w1 w2 w3 : world) :
  enrich_step w1 w2 -> enrich_step w2 w3 -> enrich_step w1 w3.
Proof.
  intros (A1 & A2 & A3 & A4 & A5 & evs1 & A6 & H1) (B1 & B2 & B3 & B4 & B5 & evs2 & B6 & H2).
  unfold enrich_step. repeat split; try congruence.
  exists (evs1 ++ evs2)%list. split; [rewrite B6, A6; now rewrite app_assoc|].
  rewrite count_fetches_to_app. lia.
Qed.

Lemma getCategoryName_step (w : world) (categoryId : option string) (apiKey region : string) :
  let r := getCategoryName categoryId apiKey region w in
  enrich_step w (snd r)
  /\ channels_calls (calls (snd r)) = channels_calls (calls w)
  /\ ((forall cid, or_null categoryId = Some cid ->
                   categoryNameCache w !! (region ++ ":" ++ cid) = None ->
                   videoCategories (net w) (videoCategories_calls (calls w)) <> Rejected) ->
      exists name, fst r = Ok name).
Proof.
  cbv zeta. unfold getCategoryName.
  destruct (or_null categoryId) as [cid|].
  2: { split; [apply enrich_step_refl|]. split; [reflexivity|]. intros _. now exists None. }
  destruct (categoryNameCache w !! _) as [c|] eqn:Hc.
  { split; [apply enrich_step_refl|]. split; [reflexivity|]. intros _. now exists c. }
  unfold bind, fetch_videoCategories.
  destruct (videoCategories (net w) _) as [|status text items] eqn:Hans.
  - split; [|split; [reflexivity | intros H; destruct (H cid eq_refl Hc eq_refl)]].
    repeat split. now exists [EvFetch VideoCategories cid].
  - destruct (res_ok status); cbn.
    + split; [|split; [reflexivity | eauto]].
      repeat split. now exists [EvFetch VideoCategories cid].
    + split; [|split; [reflexivity | eauto]].
      repeat split. now exists [EvFetch VideoCategories cid].
Qed.

Lemma fetchChannelBasics_step (w : world) (channelId : option string) (apiKey : string) :
  let r := fetchChannelBasics channelId apiKey w in
  enrich_step w (snd r)
  /\ ((truthy channelId = true -> channels (net w) (channels_calls (calls w)) <> Rejected) ->
      exists extra, fst r = Ok extra).
Proof.
  cbv zeta. unfold fetchChannelBasics, truthy.
  destruct (or_null channelId) as [chid|].
  2: { split; [apply enrich_step_refl|]. intros _. now exists None. }
  unfold bind, fetch_channels.
  destruct (channels (net w) _) as [|status text items] eqn:Hans.
  - split; [|intros H; destruct (H eq_refl eq_refl)].
    repeat split. now exists [EvFetch Channels chid].
  - destruct (res_ok status); cbn.
    + destruct items as [|c items]; (split; [|eauto]);
        repeat split; now exists [EvFetch Channels chid].
    + split; [|eauto]. repeat split. now exists [EvFetch Channels chid].
Qed.

Lemma bind_ok {A B} (m : M A) (k : A -> M B) (w w' : world) (a : A) :
  m w = (Ok a, w') -> bind m k w = k a w'.
Proof. unfold bind. now intros ->. Qed.

Lemma bind_throw {A B} (m : M A) (k : A -> M B) (w w' : world) (e : error) :
  m w = (Throw e, w') -> bind m k w = (Throw e, w').
Proof. unfold bind. now intros ->. Qed.

Lemma category_choice_step (b : bool) (w : world) (categoryId : option string)
    (apiKey region : string) :
  let r := (if b then getCategoryName categoryId apiKey region else ret None) w in
  enrich_step w (snd r)
  /\ channels_calls (calls (snd r)) = channels_calls (calls w)
  /\ ((forall cid, or_null categoryId = Some cid ->
                   categoryNameCache w !! (region ++ ":" ++ cid) = None ->
                   videoCategories (net w) (videoCategories_calls (calls w)) <> Rejected) ->
      exists name, fst r = Ok name).
Proof.
  destruct b; [apply getCategoryName_step|].
  cbv zeta. split; [apply enrich_step_refl|]. split; [reflexivity|]. intros _. now exists None.
Qed.

Lemma channel_choice_step (b : bool) (w : world) (channelId : option string) (apiKey : string) :
  let r := (if b then fetchChannelBasics channelId apiKey else ret None) w in
  enrich_step w (snd r)
  /\ ((truthy channelId = true -> channels (net w) (channels_calls (calls w)) <> Rejected) ->
      exists extra, fst r = Ok extra).
Proof.
  destruct b; [apply fetchChannelBasics_step|].
  cbv zeta. split; [apply enrich_step_refl|]. intros _. now exists None.
Qed.

Lemma enrichment_answered_same (w w' : world) (m : metadata) :
  net w' = net w -> categoryNameCache w' = categoryNameCache w ->
  videoCategories_calls (calls w') = videoCategories_calls (calls w) ->
  channels_calls (calls w') = channels_calls (calls w) ->
  enrichment_answered w m -> enrichment_answered w' m.
Proof. unfold enrichment_answered. intros -> -> -> ->. auto. Qed.

(** The events of the append, the mark and the notification. *)
Lemma enrich_and_log_run (videoId url : string) (cfg : config) (meta : metadata) (w : world) :
  let r := enrich_and_log videoId url cfg meta w in
  (exists evs, trace (snd r) = (trace w ++ evs)%list /\ count_fetches_to Videos evs = 0%nat)
  /\ (forall err, fst r = Throw err -> local (snd r) = local w)
  /\ (enrichment_answered w meta ->
      exists categoryName channelExtra evs,
        let e := make_entry videoId url cfg meta categoryName channelExtra (now w) in
        fst r = Ok tt
        /\ watchLog (local (snd r)) = Some (push_and_trim (watchLog (local w)) e 5000)
        /\ lastLogged (local (snd r))
           = <[dedup_key (profile cfg) videoId := now w]> (lastLogged (local w))
        /\ playlistLinks (local (snd r)) = playlistLinks (local w)
        /\ trace (snd r)
           = (trace w ++ evs
              ++ [EvLocalGet "watchLog"; EvLocalSet ["watchLog"];
                  EvLocalGet "lastLogged"; EvLocalSet ["lastLogged"];
                  EvSendMessage e])%list
        /\ count_fetches_to Videos evs = 0%nat).
Proof.
  cbv zeta. unfold enrich_and_log. cbv zeta.
  set (hasKey := truthy (Some (apiKey cfg))).
  pose proof (category_choice_step hasKey w (m_categoryId meta) (apiKey cfg) "US") as HC.
  cbv zeta in HC.
  destruct ((if hasKey then getCategoryName _ _ _ else ret None) w) as [[cat|e1] w1] eqn:E1;
    cbn [fst snd] in HC; destruct HC as (S1 & C1 & R1).
  2: { rewrite (bind_throw _ _ _ _ _ E1). cbn [fst snd].
       destruct S1 as (_ & Hl & _ & _ & _ & evs & Ht & Hc).
       split; [eauto|]. split; [intros _ _; exact Hl|].
       intros [Hcat _]. destruct (R1 Hcat) as [? [=]]. }
  rewrite (bind_ok _ _ _ _ _ E1).
  pose proof (channel_choice_step (hasKey && truthy (m_channelId meta)) w1
                (m_channelId meta) (apiKey cfg)) as HX.
  cbv zeta in HX.
  destruct ((if (hasKey && truthy (m_channelId meta))%bool then fetchChannelBasics _ _
             else ret None) w1) as [[ext|e2] w2] eqn:E2;
    cbn [fst snd] in HX; destruct HX as (S2 & R2);
    pose proof (enrich_step_trans _ _ _ S1 S2) as (Hs & Hl & Hn & Hnow & _ & evs & Ht & Hc).
  2: { rewrite (bind_throw _ _ _ _ _ E2). cbn [fst snd].
       split; [eauto|]. split; [intros _ _; exact Hl|].
       intros [_ Hch]. destruct S1 as (_ & _ & Hn1 & _).
       rewrite <- Hn1, <- C1 in Hch. destruct (R2 Hch) as [? [=]]. }
  rewrite (bind_ok _ _ _ _ _ E2).
  unfold bind, Date_now, setLogEntry, markLogged, tell. cbn.
  rewrite Hl, Hnow, Ht.
  split.
  - eexists. split; [rewrite <- !app_assoc; reflexivity|].
    rewrite count_fetches_to_app, Hc. reflexivity.
  - split; [discriminate|]. intros _. exists cat, ext, evs.
    repeat split; try assumption. now rewrite <- !app_assoc.
Qed.

(** ** The orchestrator *)

Lemma failures_before_last_spec (answers : nat -> response video_resource) (n left : nat) :
  let j := failures_before_last answers n left in
  (j <= left)%nat
  /\ (forall i, (i < j)%nat -> succeeds (answers (n + i)%nat) = false)
  /\ (succeeds (answers (n + j)%nat) = true \/ j = left).
Proof.
  revert n. induction left as [|left IH]; intros n; cbn [failures_before_last].
  - destruct (succeeds (answers n)) eqn:E; cbv zeta; rewrite Nat.add_0_r;
      (split; [lia|]); (split; [intros i Hi; lia | auto]).
  - destruct (succeeds (answers n)) eqn:E; cbv zeta.
    + rewrite Nat.add_0_r. split; [lia|]. split; [intros i Hi; lia | auto].
    + specialize (IH (S n)). cbv zeta in IH.
      set (j := failures_before_last answers (S n) left) in *.
      destruct IH as (H1 & H2 & H3). split; [lia|]. split.
      * intros [|i] Hi; [now rewrite Nat.add_0_r|].
        replace (n + S i)%nat with (S n + i)%nat by lia. apply H2. lia.
      * replace (n + S j)%nat with (S n + j)%nat by lia.
        destruct H3 as [H3|H3]; [now left | right; lia].
Qed.

Lemma count_backoff_events (videoId : string) (attempt : Z) (j : nat) :
  count_fetches_to Videos (backoff_events videoId attempt j) = S j.
Proof.
  revert attempt. induction j as [|j IH]; intros attempt; [reflexivity|].
  cbn [backoff_events]. unfold count_fetches_to in *. cbn. now rewrite IH.
Qed.

Lemma logYouTubeWatch_body_front (videoId url : string) (w : world) :
  logYouTubeWatch_body videoId url w
  = let w2 := emit (EvLocalGet "lastLogged") (emit EvSyncGet w) in
    if suppressed w videoId then (Ok tt, w2)
    else bind (if truthy (Some (apiKey (config_of w)))
               then fetchVideoMetadataRich videoId (apiKey (config_of w)) 3
               else ret (fallback_meta videoId))
              (fun meta => enrich_and_log videoId url (config_of w) meta) w2.
Proof.
  unfold logYouTubeWatch_body, suppressed.
  unfold bind at 1. unfold getConfig. cbv beta iota. fold (config_of w).
  unfold bind at 1. unfold recentlyLogged. unfold bind at 1. unfold tell. cbv beta iota.
  change (now (emit (EvLocalGet "lastLogged") (emit EvSyncGet w))) with (now w).
  change (local (emit (EvLocalGet "lastLogged") (emit EvSyncGet w))) with (local w).
  destruct (lastLogged (local w) !! _) as [t|]; [|reflexivity].
  now destruct (age_below _ _ _).
Qed.

Lemma last_push_and_trim (stored : option (list entry)) (e : entry) :
  last (push_and_trim stored e 5000) = Some e.
Proof.
  rewrite push_and_trim_drop by lia. cbv zeta.
  rewrite drop_app_le by (rewrite length_app; unfold surplus; cbn [List.length]; lia).
  apply last_snoc.
Qed.

(** An intake with an API key that the dedup guard lets through: the
    config read, the dedup check, the attempts of the primary fetch with
    their waits, and then either the enrichment and the log, or the error
    report. *)
Lemma intake_with_key (w : world) (videoId url : string) :
  truthy (Some (apiKey (config_of w))) = true ->
  suppressed w videoId = false ->
  let j := failures_before_last (videos (net w)) (videos_calls (calls w)) 3 in
  let evs := events_of (logYouTubeWatch videoId url) w in
  let final := after (logYouTubeWatch videoId url) w in
  (exists rest,
      evs = (EvSyncGet :: EvLocalGet "lastLogged" :: backoff_events videoId 0 j ++ rest)%list
      /\ count_fetches_to Videos rest = 0%nat)
  /\ match attempt_outcome (answer w j) with
     | Ok m =>
         enrichment_answered w m ->
         exists categoryName channelExtra t more,
           let e := make_entry videoId url (config_of w) m categoryName channelExtra t in
           evs = (EvSyncGet :: EvLocalGet "lastLogged" :: backoff_events videoId 0 j
                  ++ more ++ logging_events e)%list
           /\ watchLog (local final) = Some (push_and_trim (watchLog (local w)) e 5000)
           /\ lastLogged (local final)
              = <[dedup_key (profile (config_of w)) videoId := t]> (lastLogged (local w))
     | Throw err =>
         evs = (EvSyncGet :: EvLocalGet "lastLogged" :: backoff_events videoId 0 j
                ++ [EvConsoleError err])%list
         /\ local final = local w
     end.
Proof.
  intros Hkey Hsupp. cbv zeta.
  set (j := failures_before_last _ _ _).
  set (w2 := emit (EvLocalGet "lastLogged") (emit EvSyncGet w)).
  assert (Hrun : logYouTubeWatch videoId url w
                 = try_catch (bind (fetch_loop videoId 3 0)
                                   (fun meta => enrich_and_log videoId url (config_of w) meta))
                             (fun err => tell (EvConsoleError err)) w2).
  { unfold logYouTubeWatch, try_catch. rewrite logYouTubeWatch_body_front.
    cbv zeta. rewrite Hsupp, Hkey. reflexivity. }
  assert (Ht2 : trace w2 = (trace w ++ [EvSyncGet; EvLocalGet "lastLogged"])%list)
    by (cbn; now rewrite <- app_assoc).
  pose proof (fetch_loop_run videoId 3 0 w2) as HL. cbv zeta in HL.
  change (failures_before_last (videos (net w2)) (videos_calls (calls w2)) 3)
    with j in HL.
  change (answer w2 j) with (answer w j) in HL.
  unfold events_of, after. rewrite Hrun. unfold try_catch.
  destruct (fetch_loop videoId 3 0 w2) as [[m|err] w3] eqn:EL; cbn [fst snd] in HL;
    destruct HL as (F1 & (Q1 & Q2 & Q3 & Q4) & F3 & F4 & F5 & F6); rewrite <- F1.
  - rewrite (bind_ok _ _ _ _ _ EL).
    pose proof (enrich_and_log_run videoId url (config_of w) m w3) as HE. cbv zeta in HE.
    destruct (enrich_and_log videoId url (config_of w) m w3) as [[[]|err2] w4] eqn:EE;
      cbn [fst snd] in HE; destruct HE as ((evs & T4 & C4) & R2 & R3); cbn [snd].
    + split.
      * exists evs. split; [|exact C4].
        rewrite T4, F3, Ht2, <- !app_assoc. apply drop_app_length.
      * intros Hans.
        destruct R3 as (cat & ext & more & _ & L1 & L2 & _ & T5 & _).
        { exact (enrichment_answered_same w w3 m Q4 Q3 F4 F5 Hans). }
        exists cat, ext, (now w3), more. cbv zeta.
        rewrite Q2 in L1, L2. split; [|split; [exact L1 | exact L2]].
        rewrite T5, F3, Ht2, <- !app_assoc. apply drop_app_length.
    + split.
      * exists (evs ++ [EvConsoleError err2])%list. split.
        -- cbn. rewrite T4, F3, Ht2, <- !app_assoc. apply drop_app_length.
        -- rewrite count_fetches_to_app, C4. reflexivity.
      * intros Hans.
        destruct R3 as (? & ? & ? & [=] & _).
        exact (enrichment_answered_same w w3 m Q4 Q3 F4 F5 Hans).
  - rewrite (bind_throw _ _ _ _ _ EL). cbn.
    split; [exists [EvConsoleError err]; split; [|reflexivity] | split; [|exact Q2]];
      rewrite F3, Ht2, <- !app_assoc; apply drop_app_length.
Qed.

(** X22. The primary fetch in an intake.  For an intake with an API key
    that the dedup check lets through: the primary fetch sends at most 4
    requests, and between two attempts it waits 300 ms times the number
    of the attempt that failed (300, 600, 900); it stops at the first
    attempt that succeeds.  If all 4 attempts fail, the error of the last
    one is caught and reported, and the local store, the log in it, is
    unchanged.  If one of them succeeds and every request that the
    enrichment sends is answered, the entry built from the metadata of
    that answer is appended to the log, the key is marked and the entry
    is sent. *)
Theorem primary_fetch_retry (w : world) (videoId url : string) :
  truthy (Some (apiKey (config_of w))) = true ->
  suppressed w videoId = false ->
  let j := failures_before_last (videos (net w)) (videos_calls (calls w)) 3 in
  let evs := events_of (logYouTubeWatch videoId url) w in
  let final := after (logYouTubeWatch videoId url) w in
  count_fetches_to Videos evs = S j /\ (S j <= 4)%nat
  /\ (exists rest,
         evs = (EvSyncGet :: EvLocalGet "lastLogged" :: backoff_events videoId 0 j ++ rest)%list)
  /\ backoff_events videoId 0 3
     = [EvFetch Videos videoId; EvSleep 300; EvFetch Videos videoId; EvSleep 600;
        EvFetch Videos videoId; EvSleep 900; EvFetch Videos videoId]
  /\ (forall i, (i < j)%nat -> succeeds (answer w i) = false)
  /\ (forall i, (i <= 3)%nat -> succeeds (answer w i) = true -> succeeds (answer w j) = true)
  /\ match attempt_outcome (answer w j) with
     | Ok m =>
         enrichment_answered w m ->
         exists categoryName channelExtra t,
           let e := make_entry videoId url (config_of w) m categoryName channelExtra t in
           last (log_of final) = Some e
           /\ is_Some (lastLogged (local final) !! dedup_key (profile (config_of w)) videoId)
           /\ last evs = Some (EvSendMessage e)
     | Throw err =>
         j = 3%nat
         /\ evs = (EvSyncGet :: EvLocalGet "lastLogged" :: backoff_events videoId 0 3
                   ++ [EvConsoleError err])%list
         /\ local final = local w
         /\ log_of final = log_of w
     end.
Proof.
  intros Hkey Hsupp. cbv zeta.
  pose proof (intake_with_key w videoId url Hkey Hsupp) as H. cbv zeta in H.
  pose proof (failures_before_last_spec (videos (net w)) (videos_calls (calls w)) 3) as HJ.
  cbv zeta in HJ. fold (answer w) in HJ.
  set (j := failures_before_last _ _ _) in *.
  change (videos (net w) (videos_calls (calls w) + j)) with (answer w j) in HJ.
  destruct HJ as (Hle & Hfail & Hlast).
  destruct H as ((rest & Hevs & Hrest) & Hout).
  split; [|split; [lia|split; [eauto|split; [reflexivity|split; [|split]]]]].
  - rewrite Hevs.
    change (EvSyncGet :: EvLocalGet "lastLogged" :: backoff_events videoId 0 j ++ rest)%list
      with ([EvSyncGet; EvLocalGet "lastLogged"] ++ backoff_events videoId 0 j ++ rest)%list.
    rewrite !count_fetches_to_app, count_backoff_events, Hrest.
    change (count_fetches_to Videos [EvSyncGet; EvLocalGet "lastLogged"]) with 0%nat. lia.
  - intros i Hi. apply (Hfail i Hi).
  - intros i Hi Hok. destruct Hlast as [Hs|Hj]; [exact Hs|].
    destruct (Nat.eq_dec i j) as [->|Hne]; [exact Hok|].
    assert (Hi' : (i < j)%nat) by lia.
    pose proof (Hfail i Hi') as Hf. fold (answer w i) in Hf. congruence.
  - destruct (attempt_outcome (answer w j)) as [m|err] eqn:E.
    + intros Hans. destruct (Hout Hans) as (cat & ext & t & more & Hev & Hlog & Hmark).
      exists cat, ext, t. cbv zeta. split; [|split].
      * unfold log_of. rewrite Hlog. apply last_push_and_trim.
      * rewrite Hmark, lookup_insert_eq. eauto.
      * rewrite Hev. unfold logging_events.
        set (e := make_entry _ _ _ _ _ _ _).
        replace (EvSyncGet :: EvLocalGet "lastLogged" :: backoff_events videoId 0 j ++ more
                 ++ [EvLocalGet "watchLog"; EvLocalSet ["watchLog"];
                     EvLocalGet "lastLogged"; EvLocalSet ["lastLogged"];
                     EvSendMessage e])%list
          with ((EvSyncGet :: EvLocalGet "lastLogged" :: backoff_events videoId 0 j ++ more
                 ++ [EvLocalGet "watchLog"; EvLocalSet ["watchLog"];
                     EvLocalGet "lastLogged"; EvLocalSet ["lastLogged"]])
                ++ [EvSendMessage e])%list
          by (simpl; rewrite <- !app_assoc; reflexivity).
        apply last_snoc.
    + assert (Hj : j = 3%nat).
      { destruct Hlast as [Hs|Hj]; [|exact Hj].
        unfold succeeds in Hs. rewrite E in Hs. discriminate. }
      destruct Hout as [Hev Hloc]. rewrite Hj in Hev.
      repeat split; try assumption. unfold log_of. now rewrite Hloc.
Qed.

Lemma primary_fetch_retry_witness :
  let w := configured "KEY" flaky 0 in
  let url := "https://www.youtube.com/watch?v=abc123" in
  count_fetches_to Videos (events_of (logYouTubeWatch "abc123" url) w) = 4%nat
  /\ exists e, last (log_of (after (logYouTubeWatch "abc123" url) w)) = Some e
               /\ e_title e = Some "A title".
Proof.
  intros w url.
  destruct (primary_fetch_retry w "abc123" url) as (H1 & _ & _ & _ & _ & _ & H2).
  - vm_compute. reflexivity.
  - vm_compute. reflexivity.
  - split; [exact H1|].
    destruct H2 as (cat & ext & t & Hlast & _).
    + split; [intros cid _ _ | intros _]; discriminate.
    + eexists. split; [exact Hlast | reflexivity].
Defined.

(** C1: a defect of the code.  An intake with an API key, for a video
    that the dedup check lets through.  The first attempt of the primary
    fetch succeeds; the request for the name of the category is rejected
    (the network fails).  The intake is aborted: the rejection reaches
    the catch-all of [logYouTubeWatch] and is reported, no entry is
    appended, the key is not marked, nothing is sent.  By the claim an
    intake whose primary fetch succeeds goes on and succeeds, and the
    enrichment does just that for a failure that it gets as a response:
    with the answer 503 to the same request the entry is appended, its
    category name null. *)
Theorem intake_aborted_by_enrichment :
  let url := "https://www.youtube.com/watch?v=abc123" in
  let w := configured "KEY" categories_unreachable 0 in
  let final := after (logYouTubeWatch "abc123" url) w in
  let w' := configured "KEY" categories_unavailable 0 in
  let final' := after (logYouTubeWatch "abc123" url) w' in
  (suppressed w "abc123" = false
   /\ returned (fetchVideoMetadataRich "abc123" "KEY" 3) w = Some (metadata_of sample_video)
   /\ succeeds (answer w 0) = true
   /\ events_of (logYouTubeWatch "abc123" url) w
      = [EvSyncGet; EvLocalGet "lastLogged"; EvFetch Videos "abc123";
         EvFetch VideoCategories "10"; EvConsoleError TransportError]
   /\ log_of final = []
   /\ lastLogged (local final) !! dedup_key "Child" "abc123" = None)
  /\ (returned (fetchVideoMetadataRich "abc123" "KEY" 3) w' = Some (metadata_of sample_video)
      /\ exists e,
           log_of final' = [e]
           /\ e_videoId e = "abc123" /\ e_title e = Some "A title"
           /\ e_categoryId e = Some "10" /\ e_categoryName e = None
           /\ is_Some (lastLogged (local final') !! dedup_key "Child" "abc123")
           /\ events_of (logYouTubeWatch "abc123" url) w'
              = [EvSyncGet; EvLocalGet "lastLogged"; EvFetch Videos "abc123";
                 EvFetch VideoCategories "10"; EvFetch Channels "UC1";
                 EvLocalGet "watchLog"; EvLocalSet ["watchLog"];
                 EvLocalGet "lastLogged"; EvLocalSet ["lastLogged"];
                 EvSendMessage e]).
Proof.
  cbv zeta. split.
  - repeat split; vm_compute; reflexivity.
  - split; [vm_compute; reflexivity|].
    eexists. split; [vm_compute; reflexivity|].
    repeat split; try (vm_compute; reflexivity).
    vm_compute. eauto.
Qed.

Lemma suppressed_recentlyLogged (w : world) (videoId : string) :
  returned (recentlyLogged (profile (config_of w)) videoId 120) w = Some (suppressed w videoId).
Proof. apply recentlyLogged_returns. Qed.

(** A suppressed intake: the config read, the dedup check, and nothing
    else. *)
Lemma intake_suppressed (w : world) (videoId url : string) :
  suppressed w videoId = true ->
  logYouTubeWatch videoId url w
  = (Ok tt, emit (EvLocalGet "lastLogged") (emit EvSyncGet w)).
Proof.
  intros Hsupp. unfold logYouTubeWatch, try_catch.
  rewrite logYouTubeWatch_body_front. cbv zeta. now rewrite Hsupp.
Qed.

(** An intake without an API key that the dedup guard lets through. *)
Lemma intake_without_key (w : world) (videoId url : string) :
  truthy (Some (apiKey (config_of w))) = false ->
  suppressed w videoId = false ->
  let e := make_entry videoId url (config_of w) (fallback_meta videoId) None None (now w) in
  let final := after (logYouTubeWatch videoId url) w in
  events_of (logYouTubeWatch videoId url) w
  = (EvSyncGet :: EvLocalGet "lastLogged" :: logging_events e)%list
  /\ watchLog (local final) = Some (push_and_trim (watchLog (local w)) e 5000)
  /\ lastLogged (local final)
     = <[dedup_key (profile (config_of w)) videoId := now w]> (lastLogged (local w))
  /\ playlistLinks (local final) = playlistLinks (local w)
  /\ calls final = calls w
  /\ now final = now w
  /\ sync final = sync w.
Proof.
  intros Hkey Hsupp. cbv zeta.
  assert (Hrun : logYouTubeWatch videoId url w
                 = (exec setLogEntry
                           (make_entry videoId url (config_of w) (fallback_meta videoId)
                                       None None (now w)) 5000;
                    exec markLogged (profile (config_of w)) videoId;
                    tell (EvSendMessage
                            (make_entry videoId url (config_of w) (fallback_meta videoId)
                                        None None (now w))))
                     (emit (EvLocalGet "lastLogged") (emit EvSyncGet w))).
  { unfold logYouTubeWatch, try_catch. rewrite logYouTubeWatch_body_front.
    cbv zeta. rewrite Hsupp, Hkey. unfold enrich_and_log. cbv zeta. rewrite Hkey.
    reflexivity. }
  unfold after. rewrite Hrun. split; [|repeat split].
  apply events_of_app. unfold after. rewrite Hrun. cbn.
  rewrite <- !app_assoc. reflexivity.
Qed.

(** C5, as the code has it.  In every intake the config read is the
    first event and the dedup check the second: the check needs the
    profile that the config holds.  A suppressed intake ends after these
    two reads: no request, no append, no mark, no notification. *)
Theorem config_read_before_dedup_check (w : world) (videoId url : string) :
  let evs := events_of (logYouTubeWatch videoId url) w in
  let final := after (logYouTubeWatch videoId url) w in
  (exists rest, evs = EvSyncGet :: EvLocalGet "lastLogged" :: rest)
  /\ first_index is_config_read evs = Some 0%nat
  /\ first_index is_dedup_check evs = Some 1%nat
  /\ returned (recentlyLogged (profile (config_of w)) videoId 120) w
     = Some (suppressed w videoId)
  /\ (suppressed w videoId = true ->
      evs = [EvSyncGet; EvLocalGet "lastLogged"]
      /\ local final = local w
      /\ categoryNameCache final = categoryNameCache w
      /\ calls final = calls w).
Proof.
  cbv zeta.
  assert (Hfront : exists rest,
             events_of (logYouTubeWatch videoId url) w
             = EvSyncGet :: EvLocalGet "lastLogged" :: rest).
  { destruct (suppressed w videoId) eqn:Hsupp.
    - exists []. apply events_of_app. unfold after.
      rewrite (intake_suppressed _ _ _ Hsupp). cbn. now rewrite <- app_assoc.
    - destruct (truthy (Some (apiKey (config_of w)))) eqn:Hkey.
      + destruct (intake_with_key w videoId url Hkey Hsupp) as ((rest & Hevs & _) & _).
        eauto.
      + destruct (intake_without_key w videoId url Hkey Hsupp) as (Hevs & _).
        eauto. }
  destruct Hfront as (rest & Hevs).
  split; [eauto|]. rewrite Hevs.
  split; [reflexivity|]. split; [reflexivity|].
  split; [apply suppressed_recentlyLogged|].
  intros Hsupp. unfold after. rewrite <- Hevs.
  rewrite (intake_suppressed _ _ _ Hsupp). repeat split.
  apply events_of_app. unfold after.
  rewrite (intake_suppressed _ _ _ Hsupp). cbn. now rewrite <- app_assoc.
Qed.

Lemma config_read_before_dedup_check_witness :
  let w := after (markLogged "Child" "abc123") (fresh_install offline 0) in
  events_of (logYouTubeWatch "abc123" "https://www.youtube.com/watch?v=abc123") w
  = [EvSyncGet; EvLocalGet "lastLogged"].
Proof.
  intros w.
  destruct (config_read_before_dedup_check w "abc123" "https://www.youtube.com/watch?v=abc123")
    as (_ & _ & _ & _ & H).
  destruct H as [H _]; [vm_compute; reflexivity | exact H].
Defined.

(** C5 as written fails: an intake that the dedup guard suppresses has
    read the config, and it has done so before the dedup check. *)
Lemma suppressed_intake_reads_config :
  let w := after (markLogged "Child" "abc123") (fresh_install offline 0) in
  let evs := events_of (logYouTubeWatch "abc123" "https://www.youtube.com/watch?v=abc123") w in
  suppressed w "abc123" = true
  /\ evs = [EvSyncGet; EvLocalGet "lastLogged"]
  /\ first_index is_config_read evs = Some 0%nat
  /\ first_index is_dedup_check evs = Some 1%nat.
Proof. repeat split; vm_compute; reflexivity. Qed.

(** C8. An intake without an API key that the dedup guard lets through
    builds an entry whose title, description and duration are null (and
    whose other catalog fields are null or empty), whose [isShorts] is
    what the url alone says; no request is sent; the entry is appended to
    the log, the key is marked with the current time, so that the same
    video is suppressed from then on, and the entry is sent to the
    listeners. *)
Theorem fallback_without_key (w : world) (videoId url : string) :
  truthy (Some (apiKey (config_of w))) = false ->
  suppressed w videoId = false ->
  let evs := events_of (logYouTubeWatch videoId url) w in
  let final := after (logYouTubeWatch videoId url) w in
  exists e,
    (e_videoId e = videoId /\ e_url e = url /\ e_profile e = profile (config_of w)
     /\ e_watchedAt e = now w)
    /\ (e_title e = None /\ e_description e = None /\ e_durationSeconds e = None)
    /\ e_isShorts e = Str.includes "/shorts/" url
    /\ (e_channelId e = None /\ e_channelTitle e = None /\ e_publishedAt e = None
        /\ e_categoryId e = None /\ e_categoryName e = None /\ e_tags e = []
        /\ e_topicCategories e = [] /\ e_channelExtra e = None)
    /\ evs = (EvSyncGet :: EvLocalGet "lastLogged" :: logging_events e)%list
    /\ count_fetches evs = 0%nat
    /\ last (log_of final) = Some e
    /\ lastLogged (local final) !! dedup_key (profile (config_of w)) videoId = Some (now w)
    /\ suppressed final videoId = true.
Proof.
  intros Hkey Hsupp. cbv zeta.
  destruct (intake_without_key w videoId url Hkey Hsupp)
    as (Hevs & Hlog & Hmark & _ & _ & Hnow & Hsync).
  cbv zeta in *.
  set (e := make_entry videoId url (config_of w) (fallback_meta videoId) None None (now w)) in *.
  exists e. split; [repeat split|]. split; [repeat split|].
  split; [unfold e, make_entry, inferIsShorts; cbn; now destruct (Str.includes _ _)|].
  split; [repeat split|]. split; [exact Hevs|]. split; [now rewrite Hevs|].
  split; [unfold log_of; rewrite Hlog; apply last_push_and_trim|].
  assert (Hl : lastLogged (local (after (logYouTubeWatch videoId url) w))
               !! dedup_key (profile (config_of w)) videoId = Some (now w))
    by (rewrite Hmark; apply lookup_insert_eq).
  split; [exact Hl|].
  unfold suppressed, config_of. rewrite Hsync. fold (config_of w).
  rewrite Hl, Hnow. apply age_below_spec. lia.
Qed.

Lemma fallback_without_key_witness :
  let w := fresh_install offline 1000 in
  let url := "https://www.youtube.com/shorts/abc123" in
  exists e,
    last (log_of (after (logYouTubeWatch "abc123" url) w)) = Some e
    /\ e_title e = None /\ e_isShorts e = true
    /\ count_fetches (events_of (logYouTubeWatch "abc123" url) w) = 0%nat.
Proof.
  intros w url.
  destruct (fallback_without_key w "abc123" url)
    as (e & _ & (Ht & _) & Hs & _ & _ & Hc & Hl & _).
  - vm_compute. reflexivity.
  - vm_compute. reflexivity.
  - exists e. split; [exact Hl|]. split; [exact Ht|]. split; [|exact Hc].
    rewrite Hs. reflexivity.
Defined.

(** * Further properties of the code *)

(** ** Durations are not negative *)

Lemma digit_value_nonneg (a : ascii) : Str.is_digit a = true -> 0 <= Str.digit_value a.
Proof.
  unfold Str.is_digit, Str.digit_value. cbv zeta.
  intros H. apply andb_prop in H as [H _]. apply Nat.leb_le in H. lia.
Qed.

Lemma parseInt_digits_nonneg (s : string) (acc : Z) :
  0 <= acc -> 0 <= parseInt_digits acc s.
Proof.
  revert acc. induction s as [|a s IH]; intros acc Hacc; cbn [parseInt_digits]; [exact Hacc|].
  destruct (Str.is_digit a) eqn:E; [|exact Hacc].
  apply IH. pose proof (digit_value_nonneg a E). lia.
Qed.

Lemma component_value_nonneg (x : option string) : 0 <= component_value x.
Proof.
  unfold component_value.
  destruct (parseInt _) as [n|] eqn:E; [|lia].
  unfold parseInt in E.
  destruct (match x with Some EmptyString | None => "0" | Some s => s end) as [|a s];
    [discriminate|].
  destruct (Str.is_digit a); [|discriminate].
  injection E as <-. exact (parseInt_digits_nonneg (String a s) 0 (Z.le_refl 0)).
Qed.

(** X1. [parseISODurationToSeconds] never returns a negative number, so that
    the entry built from it has a null or non-negative duration. *)
Theorem parsed_duration_nonneg (iso : option string) (v : video_resource) :
  from_option (fun n => 0 <= n) True (parseISODurationToSeconds iso)
  /\ from_option (fun n => 0 <= n) True (m_durationSeconds (metadata_of v)).
Proof.
  assert (H : forall i, from_option (fun n => 0 <= n) True (parseISODurationToSeconds i)).
  { intros i. unfold parseISODurationToSeconds.
    destruct (regex_exec _) as [m|]; [|exact I]. cbn.
    pose proof (component_value_nonneg (grpH m)).
    pose proof (component_value_nonneg (grpM m)).
    pose proof (component_value_nonneg (grpS m)). lia. }
  split; [apply H | apply (H (cd_duration v))].
Qed.

(** ** Keys of the dedup table *)

Lemma includes_colon_cons (a : ascii) (s : string) :
  Str.includes ":" (String a s) = false -> a <> ":"%char /\ Str.includes ":" s = false.
Proof.
  cbn [Str.includes Str.starts_with].
  destruct (Ascii.eqb_spec ":" a) as [<-|Hne].
  - now destruct s.
  - intros H. split; [congruence | exact H].
Qed.

Lemma dedup_key_inj (p p' v v' : string) :
  Str.includes ":" p = false -> Str.includes ":" p' = false ->
  dedup_key p v = dedup_key p' v' -> p = p' /\ v = v'.
Proof.
  unfold dedup_key. revert p'. induction p as [|a p IH]; intros [|b p'] Hp Hp' E.
  - cbn in E. injection E as ->. now split.
  - cbn in E. injection E as <- _. apply includes_colon_cons in Hp' as [Hb _]. congruence.
  - cbn in E. injection E as -> _. apply includes_colon_cons in Hp as [Ha _]. congruence.
  - cbn in E. injection E as -> E.
    apply includes_colon_cons in Hp as [_ Hp]. apply includes_colon_cons in Hp' as [_ Hp'].
    destruct (IH p' Hp Hp' E) as [-> ->]. now split.
Qed.

(** X2. When the profile names hold no colon, the key [profile:videoId]
    determines the profile and the video: marking one pair changes the
    dedup check of no other pair. *)
Theorem markLogged_other_pair (w : world) (p p' v v' : string) (ttl : Z) :
  Str.includes ":" p = false -> Str.includes ":" p' = false ->
  (p', v') <> (p, v) ->
  dedup_key p' v' <> dedup_key p v
  /\ returned (recentlyLogged p' v' ttl) (after (markLogged p v) w)
     = returned (recentlyLogged p' v' ttl) w.
Proof.
  intros Hp Hp' Hne.
  assert (Hk : dedup_key p' v' <> dedup_key p v).
  { intros E. destruct (dedup_key_inj _ _ _ _ Hp' Hp E) as [-> ->]. now apply Hne. }
  split; [exact Hk|].
  rewrite !recentlyLogged_returns, markLogged_lastLogged.
  rewrite lookup_insert_ne by congruence. reflexivity.
Qed.

Lemma markLogged_other_pair_witness :
  let w := fresh_install offline 7 in
  returned (recentlyLogged "Parent" "abc123" 120) (after (markLogged "Child" "abc123") w)
  = Some false.
Proof.
  intros w.
  destruct (markLogged_other_pair w "Child" "Parent" "abc123" "abc123" 120) as [_ H].
  - reflexivity.
  - reflexivity.
  - discriminate.
  - rewrite H. reflexivity.
Defined.

(** ** The log under any capacity *)

Lemma push_and_trim_emptied (stored : option (list entry)) (e : entry) (cap : Z) :
  cap <= 0 -> push_and_trim stored e cap = [].
Proof.
  intros Hcap. unfold push_and_trim, splice0.
  set (l := (default [] stored ++ [e])%list).
  assert (Hl : (1 <= List.length l)%nat) by (unfold l; rewrite length_app; cbn; lia).
  destruct (Z.gtb_spec (Z.of_nat (List.length l)) cap) as [H|H]; [|lia].
  apply drop_ge. lia.
Qed.

(** X3. [setLogEntry(entry, maxEntries)] for every number [maxEntries]: the
    log ends up with min(length + 1, maxEntries) entries, none when
    [maxEntries] is zero or negative; when [maxEntries] is at least 1 the
    new entry is the last one; what is kept is the end of the pushed
    list; the dedup table and the playlist links are not touched. *)
Theorem setLogEntry_any_capacity (w : world) (e : entry) (maxEntries : Z) :
  let final := after (setLogEntry e maxEntries) w in
  let pushed := (log_of w ++ [e])%list in
  Z.of_nat (List.length (log_of final))
  = Z.max 0 (Z.min (Z.of_nat (List.length pushed)) maxEntries)
  /\ (exists evicted, pushed = (evicted ++ log_of final)%list)
  /\ (1 <= maxEntries -> last (log_of final) = Some e)
  /\ (maxEntries <= 0 -> log_of final = [])
  /\ lastLogged (local final) = lastLogged (local w)
  /\ playlistLinks (local final) = playlistLinks (local w).
Proof.
  cbv zeta. rewrite setLogEntry_log. fold (log_of w).
  destruct (Z.le_gt_cases maxEntries 0) as [Hcap|Hcap].
  - rewrite (push_and_trim_emptied _ _ _ Hcap). cbn [List.length].
    split; [lia|]. split; [exists (log_of w ++ [e])%list; now rewrite app_nil_r|].
    split; [lia|]. repeat split.
  - assert (Hnn : 0 <= maxEntries) by lia.
    rewrite (push_and_trim_drop maxEntries Hnn). cbv zeta. fold (log_of w).
    set (pushed := (log_of w ++ [e])%list).
    assert (Hlen : List.length pushed = S (List.length (log_of w)))
      by (unfold pushed; rewrite length_app; cbn; lia).
    split; [rewrite length_drop; unfold surplus; lia|].
    split; [exists (take (surplus (List.length pushed) maxEntries) pushed);
            now rewrite take_drop|].
    split; [|split; [lia | repeat split]].
    intros _. unfold pushed.
    rewrite drop_app_le by (fold pushed; unfold surplus; lia).
    apply last_snoc.
Qed.

(** ** Channel enrichment *)

(** X4. [fetchChannelBasics]: without a channel id it sends nothing and
    returns null; with one it sends exactly one request, raises only when
    that request is rejected, and returns a record exactly when the
    answer is a success with an item, the record of the first item; the
    stores and the cache are never touched. *)
Theorem fetchChannelBasics_spec (w : world) (channelId : option string) (apiKey : string) :
  let r := fetchChannelBasics channelId apiKey w in
  local (snd r) = local w /\ sync (snd r) = sync w
  /\ categoryNameCache (snd r) = categoryNameCache w
  /\ match or_null channelId with
     | None => r = (Ok None, w)
     | Some chid =>
         events_of (fetchChannelBasics channelId apiKey) w = [EvFetch Channels chid]
         /\ match channels (net w) (channels_calls (calls w)) with
            | Rejected => fst r = Throw TransportError
            | Http status _ items =>
                exists extra, fst r = Ok extra
                  /\ (is_Some extra <-> res_ok status = true /\ items <> [])
                  /\ (forall x, extra = Some x ->
                        exists c, head items = Some c
                                  /\ cb_channelId x = c_id c
                                  /\ cb_customUrl x = or_null (c_customUrl c)
                                  /\ cb_channelCountry x = or_null (c_country c))
            end
     end.
Proof.
  cbv zeta. unfold events_of, after, fetchChannelBasics.
  destruct (or_null channelId) as [chid|]; [|repeat split].
  unfold bind, fetch_channels.
  destruct (channels (net w) _) as [|status text items]; cbn.
  - repeat split. apply drop_app_length.
  - destruct (res_ok status); cbn.
    + destruct items as [|c items]; cbn;
        (split; [reflexivity|]); (split; [reflexivity|]); (split; [reflexivity|]);
        (split; [apply drop_app_length|]).
      * exists None. split; [reflexivity|]. split.
        -- split; [intros [? [=]] | intros [_ H]; congruence].
        -- intros x [=].
      * eexists. split; [reflexivity|]. split.
        -- split; [intros _; split; [reflexivity | discriminate] | eauto].
        -- intros x [= <-]. exists c. repeat split.
    + split; [reflexivity|]. split; [reflexivity|]. split; [reflexivity|].
      split; [apply drop_app_length|].
      exists None. split; [reflexivity|]. split.
      * split; [intros [? [=]] | intros [H _]; discriminate].
      * intros x [=].
Qed.

(** ** The retry loop for any number of retries *)

Lemma fetch_loop_clock (videoId : string) (left : nat) (attempt : Z) (w : world) :
  let j := Z.of_nat (failures_before_last (videos (net w)) (videos_calls (calls w)) left) in
  2 * (now (snd (fetch_loop videoId left attempt w)) - now w)
  = 300 * (2 * j * attempt + j * (j + 1)).
Proof.
  revert attempt w. induction left as [|left IH]; intros attempt w; cbv zeta;
    cbn [fetch_loop failures_before_last]; unfold try_catch;
    rewrite fetch_attempt_eq, fetch_videos_world; unfold succeeds;
    replace (videos (net w) (videos_calls (calls w))) with (answer w 0)
      by (unfold answer; now rewrite Nat.add_0_r).
  - destruct (attempt_outcome (answer w 0)); cbn; lia.
  - destruct (attempt_outcome (answer w 0)) as [m|e]; [cbn; lia|].
    cbv iota beta.
    match goal with
    | |- context [bind (sleep ?ms) _ ?w1] =>
        pose (w2 := advance ms (emit (EvSleep ms) w1));
        change (bind (sleep ms) (fun _ => fetch_loop videoId left (attempt + 1)) w1)
          with (fetch_loop videoId left (attempt + 1) w2)
    end.
    specialize (IH (attempt + 1) w2). cbv zeta in IH.
    change (net w2) with (net w) in IH.
    change (videos_calls (calls w2)) with (S (videos_calls (calls w))) in IH.
    change (now w2) with (now w + 300 * (attempt + 1)) in IH.
    set (j := failures_before_last _ _ _) in *.
    rewrite Nat2Z.inj_succ. nia.
Qed.

Lemma count_fetches_backoff_events (videoId : string) (attempt : Z) (j : nat) :
  count_fetches (backoff_events videoId attempt j) = S j.
Proof.
  revert attempt. induction j as [|j IH]; intros attempt; [reflexivity|].
  cbn [backoff_events]. unfold count_fetches in *. cbn. now rewrite IH.
Qed.

(** X5. [fetchVideoMetadataRich] with any [maxRetries]: it ends after at most
    [maxRetries + 1] requests; with [j] failed attempts before the last
    one it has waited 300 + 600 + ... + 300 j = 150 j (j + 1)
    milliseconds, at most 150 maxRetries (maxRetries + 1); it returns the
    record of the first attempt that succeeds among these, and raises
    (the error of the last attempt) exactly when none of them succeeds;
    it writes nothing to the local store. *)
Theorem fetchVideoMetadataRich_bounded (w : world) (videoId apiKey : string)
    (maxRetries : nat) :
  let m := fetchVideoMetadataRich videoId apiKey maxRetries in
  let j := failures_before_last (videos (net w)) (videos_calls (calls w)) maxRetries in
  (j <= maxRetries)%nat
  /\ events_of m w = backoff_events videoId 0 j
  /\ count_fetches (events_of m w) = S j
  /\ now (after m w) - now w = 150 * Z.of_nat j * (Z.of_nat j + 1)
  /\ now (after m w) - now w <= 150 * Z.of_nat maxRetries * (Z.of_nat maxRetries + 1)
  /\ fst (m w) = attempt_outcome (answer w j)
  /\ (is_Some (returned m w)
      <-> exists i, (i <= maxRetries)%nat /\ succeeds (answer w i) = true)
  /\ local (after m w) = local w.
Proof.
  cbv zeta. unfold fetchVideoMetadataRich.
  pose proof (fetch_loop_run videoId maxRetries 0 w) as HR.
  pose proof (fetch_loop_clock videoId maxRetries 0 w) as HC.
  pose proof (failures_before_last_spec (videos (net w)) (videos_calls (calls w)) maxRetries)
    as HJ.
  cbv zeta in HR, HC, HJ.
  set (j := failures_before_last _ _ _) in *.
  change (videos (net w) (videos_calls (calls w) + j)) with (answer w j) in HJ.
  destruct HR as (F1 & (_ & Q2 & _) & F3 & _ & _ & F6).
  destruct HJ as (_ & Hfail & Hlast).
  assert (Hev : events_of (fetch_loop videoId maxRetries 0) w = backoff_events videoId 0 j)
    by (apply events_of_app; exact F3).
  split; [exact F6|]. split; [exact Hev|].
  split; [rewrite Hev; apply count_fetches_backoff_events|].
  unfold after. split; [lia|]. split; [nia|]. split; [exact F1|]. split; [|exact Q2].
  unfold returned. rewrite F1. split.
  - intros Hsome. exists j. split; [exact F6|]. unfold succeeds.
    destruct (attempt_outcome (answer w j)); [reflexivity|].
    destruct Hsome as [? [=]].
  - intros (i & Hi & Hok).
    assert (Hs : succeeds (answer w j) = true).
    { destruct Hlast as [Hs|Hj]; [exact Hs|].
      destruct (Nat.eq_dec i j) as [->|Hne]; [exact Hok|].
      assert (Hi' : (i < j)%nat) by lia.
      pose proof (Hfail i Hi') as Hf. fold (answer w i) in Hf. congruence. }
    unfold succeeds in Hs. destruct (attempt_outcome (answer w j)); [eauto|discriminate].
Qed.

(** ** What an intake does to the stores *)

Lemma getCategoryName_grows (w : world) (categoryId : option string) (apiKey region : string) :
  categoryNameCache w ⊆ categoryNameCache (snd (getCategoryName categoryId apiKey region w)).
Proof.
  unfold getCategoryName.
  destruct (or_null categoryId) as [cid|]; [|reflexivity].
  destruct (categoryNameCache w !! _) as [c|] eqn:Hc; [reflexivity|].
  unfold bind, fetch_videoCategories.
  destruct (videoCategories (net w) _) as [|status text items]; [reflexivity|].
  destruct (res_ok status); cbn; [|reflexivity].
  now apply insert_subseteq.
Qed.

Lemma fetchChannelBasics_cache (w : world) (channelId : option string) (apiKey : string) :
  categoryNameCache (snd (fetchChannelBasics channelId apiKey w)) = categoryNameCache w.
Proof.
  unfold fetchChannelBasics.
  destruct (or_null channelId) as [chid|]; [|reflexivity].
  unfold bind, fetch_channels.
  destruct (channels (net w) _) as [|status text items]; [reflexivity|].
  destruct (res_ok status); cbn; [|reflexivity].
  now destruct items.
Qed.

(** The two ways in which the statements after the metadata end. *)
Lemma enrich_and_log_cases (videoId url : string) (cfg : config) (meta : metadata) (w : world) :
  let r := enrich_and_log videoId url cfg meta w in
  sync (snd r) = sync w /\ now (snd r) = now w /\ net (snd r) = net w
  /\ categoryNameCache w ⊆ categoryNameCache (snd r)
  /\ ((exists err, fst r = Throw err /\ local (snd r) = local w)
      \/ (fst r = Ok tt
          /\ exists categoryName channelExtra watchedAt mark,
               local (snd r)
               = {| watchLog :=
                      Some (push_and_trim (watchLog (local w))
                              (make_entry videoId url cfg meta categoryName channelExtra
                                          watchedAt)
                              5000);
                    lastLogged :=
                      <[dedup_key (profile cfg) videoId := mark]> (lastLogged (local w));
                    playlistLinks := playlistLinks (local w) |})).
Proof.
  cbv zeta. unfold enrich_and_log. cbv zeta.
  set (hasKey := truthy (Some (apiKey cfg))).
  pose proof (category_choice_step hasKey w (m_categoryId meta) (apiKey cfg) "US") as HC.
  assert (G1 : categoryNameCache w
               ⊆ categoryNameCache
                   (snd ((if hasKey then getCategoryName (m_categoryId meta) (apiKey cfg) "US"
                          else ret None) w)))
    by (destruct hasKey; [apply getCategoryName_grows | reflexivity]).
  cbv zeta in HC.
  destruct ((if hasKey then getCategoryName _ _ _ else ret None) w) as [[cat|e1] w1] eqn:E1;
    cbn [fst snd] in HC, G1; unfold enrich_step in HC;
    destruct HC as ((S1 & L1 & N1 & T1 & _) & _).
  2: { rewrite (bind_throw _ _ _ _ _ E1). cbn [fst snd].
       split; [exact S1|]. split; [exact T1|]. split; [exact N1|]. split; [exact G1|].
       left. eauto. }
  rewrite (bind_ok _ _ _ _ _ E1).
  pose proof (channel_choice_step (hasKey && truthy (m_channelId meta)) w1
                (m_channelId meta) (apiKey cfg)) as HX.
  assert (G2 : categoryNameCache
                 (snd ((if (hasKey && truthy (m_channelId meta))%bool
                        then fetchChannelBasics (m_channelId meta) (apiKey cfg)
                        else ret None) w1))
               = categoryNameCache w1)
    by (destruct (hasKey && truthy (m_channelId meta))%bool;
        [apply fetchChannelBasics_cache | reflexivity]).
  cbv zeta in HX.
  destruct ((if (hasKey && truthy (m_channelId meta))%bool then fetchChannelBasics _ _
             else ret None) w1) as [[ext|e2] w2] eqn:E2;
    cbn [fst snd] in HX, G2; unfold enrich_step in HX;
    destruct HX as ((S2 & L2 & N2 & T2 & _) & _).
  2: { rewrite (bind_throw _ _ _ _ _ E2). cbn [fst snd].
       split; [congruence|]. split; [congruence|]. split; [congruence|].
       split; [now rewrite G2|]. left. exists e2. split; [reflexivity | congruence]. }
  rewrite (bind_ok _ _ _ _ _ E2).
  unfold bind, Date_now, setLogEntry, markLogged, tell. cbn.
  split; [congruence|]. split; [congruence|]. split; [congruence|].
  split; [now rewrite G2|].
  right. split; [reflexivity|]. exists cat, ext, (now w), (now w).
  rewrite L2, L1, T2, T1. reflexivity.
Qed.

(** Every intake: it never raises, it leaves the configuration and the
    playlist links alone, the cache only grows, and the local store is
    either unchanged or has one entry more and the key of the video
    marked. *)
Lemma intake_cases (w : world) (videoId url : string) :
  let r := logYouTubeWatch videoId url w in
  fst r = Ok tt
  /\ sync (snd r) = sync w /\ net (snd r) = net w
  /\ categoryNameCache w ⊆ categoryNameCache (snd r)
  /\ (local (snd r) = local w
      \/ (suppressed w videoId = false
          /\ exists meta categoryName channelExtra watchedAt mark,
               local (snd r)
               = {| watchLog :=
                      Some (push_and_trim (watchLog (local w))
                              (make_entry videoId url (config_of w) meta categoryName
                                          channelExtra watchedAt)
                              5000);
                    lastLogged :=
                      <[dedup_key (profile (config_of w)) videoId := mark]>
                        (lastLogged (local w));
                    playlistLinks := playlistLinks (local w) |})).
Proof.
  cbv zeta. unfold logYouTubeWatch, try_catch. rewrite logYouTubeWatch_body_front.
  cbv zeta. set (w2 := emit (EvLocalGet "lastLogged") (emit EvSyncGet w)).
  destruct (suppressed w videoId) eqn:Hsupp.
  { cbn. split; [reflexivity|]. split; [reflexivity|]. split; [reflexivity|].
    split; [reflexivity|]. now left. }
  set (getMeta := if truthy (Some (apiKey (config_of w)))
                  then fetchVideoMetadataRich videoId (apiKey (config_of w)) 3
                  else ret (fallback_meta videoId)).
  assert (HQ : quiet w2 (snd (getMeta w2))).
  { unfold getMeta. destruct (truthy _); [|repeat split].
    apply (fetch_loop_run videoId 3 0 w2). }
  destruct (getMeta w2) as [[meta|err] w3] eqn:EM; cbn [snd] in HQ;
    unfold quiet in HQ; destruct HQ as (Q1 & Q2 & Q3 & Q4);
    change (sync w2) with (sync w) in Q1; change (local w2) with (local w) in Q2;
    change (categoryNameCache w2) with (categoryNameCache w) in Q3;
    change (net w2) with (net w) in Q4.
  2: { rewrite (bind_throw _ _ _ _ _ EM). cbn.
       split; [reflexivity|]. split; [exact Q1|]. split; [exact Q4|].
       split; [now rewrite Q3|]. now left. }
  rewrite (bind_ok _ _ _ _ _ EM).
  pose proof (enrich_and_log_cases videoId url (config_of w) meta w3) as HE.
  cbv zeta in HE.
  destruct (enrich_and_log videoId url (config_of w) meta w3) as [[[]|err2] w4];
    cbn [fst snd] in HE; destruct HE as (E1 & E2 & E3 & E4 & E5); cbn.
  - split; [reflexivity|]. split; [congruence|]. split; [congruence|].
    split; [now rewrite Q3 in E4|].
    destruct E5 as [(err & [=] & _)|(_ & cat & ext & t & mark & Hloc)].
    right. split; [reflexivity|]. exists meta, cat, ext, t, mark.
    rewrite Hloc, Q2. reflexivity.
  - split; [reflexivity|]. split; [congruence|]. split; [congruence|].
    split; [now rewrite Q3 in E4|].
    destruct E5 as [(err & _ & Hloc)|([=] & _)].
    left. congruence.
Qed.

(** X6. An intake is all or nothing.  [logYouTubeWatch] never raises and
    never writes the configuration or the playlist links; the local store
    is either left as it was, or both of its writes have happened: the
    log gains exactly one entry [e], the last one, and the dedup table
    gains a mark under the key of the video and is otherwise as it was;
    that entry carries the video id, the url and the profile of the
    intake, and its [isShorts] is [inferIsShorts] of its own url and
    duration.  The second case happens only when the dedup check let the
    intake through.  (Which instants the entry and the mark hold is not
    part of the statement: they are two readings of the clock.) *)
Theorem intake_all_or_nothing (w : world) (videoId url : string) :
  let final := after (logYouTubeWatch videoId url) w in
  returned (logYouTubeWatch videoId url) w = Some tt
  /\ sync final = sync w
  /\ playlistLinks (local final) = playlistLinks (local w)
  /\ (local final = local w
      \/ exists e mark,
           log_of final = push_and_trim (watchLog (local w)) e 5000
           /\ last (log_of final) = Some e
           /\ lastLogged (local final)
              = <[dedup_key (profile (config_of w)) videoId := mark]> (lastLogged (local w))
           /\ e_videoId e = videoId /\ e_url e = url
           /\ e_profile e = profile (config_of w)
           /\ e_isShorts e = inferIsShorts (Some (e_url e)) (e_durationSeconds e)
           /\ suppressed w videoId = false).
Proof.
  cbv zeta. unfold returned, after.
  destruct (intake_cases w videoId url) as (H1 & H2 & _ & _ & H5).
  rewrite H1. split; [reflexivity|]. split; [exact H2|].
  destruct H5 as [Hsame|(Hsupp & meta & cat & ext & t & mark & Hloc)].
  - split; [now rewrite Hsame | now left].
  - split; [now rewrite Hloc|]. right.
    eexists. eexists. unfold log_of. rewrite Hloc. cbn [watchLog lastLogged default].
    split; [reflexivity|]. split; [apply last_push_and_trim|].
    repeat split. exact Hsupp.
Qed.

(** X7. Once an intake has logged a video, the dedup table holds the
    instant [mark] that [markLogged] stored for it, and a further intake
    of the same video, whose dedup check reads the clock at [later], is
    suppressed exactly when [later - mark] is below 120 minutes: it then
    changes nothing in the local store and sends no request; from 120
    minutes after the mark on, the dedup check lets it through again. *)
Theorem relogged_only_after_ttl (w : world) (videoId url url' : string) (later : Z) :
  let logged := after (logYouTubeWatch videoId url) w in
  local logged <> local w ->
  exists mark,
    lastLogged (local logged) !! dedup_key (profile (config_of w)) videoId = Some mark
    /\ (suppressed (at_time later logged) videoId = true <-> later - mark < 120 * 60000)
    /\ (later - mark < 120 * 60000 ->
        local (after (logYouTubeWatch videoId url') (at_time later logged)) = local logged
        /\ events_of (logYouTubeWatch videoId url') (at_time later logged)
           = [EvSyncGet; EvLocalGet "lastLogged"]).
Proof.
  cbv zeta. unfold after. intros Hchanged.
  destruct (intake_cases w videoId url) as (_ & H2 & _ & _ & H5).
  destruct H5 as [Hsame|(_ & meta & cat & ext & t & mark & Hloc)]; [contradiction|].
  set (logged := snd (logYouTubeWatch videoId url w)) in *.
  exists mark.
  assert (Hm : lastLogged (local logged) !! dedup_key (profile (config_of w)) videoId
               = Some mark)
    by (rewrite Hloc; cbn [lastLogged]; apply lookup_insert_eq).
  split; [exact Hm|].
  assert (Hs : suppressed (at_time later logged) videoId = age_below later mark 120).
  { unfold suppressed, config_of. change (sync (at_time later logged)) with (sync logged).
    rewrite H2. fold (config_of w).
    change (local (at_time later logged)) with (local logged). now rewrite Hm. }
  split; [rewrite Hs; apply age_below_spec|].
  intros Hlt.
  assert (Hsupp : suppressed (at_time later logged) videoId = true)
    by (rewrite Hs; now apply age_below_spec).
  rewrite (intake_suppressed _ _ _ Hsupp). split; [reflexivity|].
  apply events_of_app. unfold after. rewrite (intake_suppressed _ _ _ Hsupp).
  cbn. now rewrite <- app_assoc.
Qed.

Lemma relogged_only_after_ttl_witness :
  let w := fresh_install offline 0 in
  let url := "https://www.youtube.com/watch?v=abc123" in
  let logged := after (logYouTubeWatch "abc123" url) w in
  events_of (logYouTubeWatch "abc123" url) (at_time 1000 logged)
  = [EvSyncGet; EvLocalGet "lastLogged"].
Proof.
  intros w url logged.
  destruct (relogged_only_after_ttl w "abc123" url url 1000) as (mark & Hm & _ & H).
  - intros E. apply (f_equal watchLog) in E. vm_compute in E. discriminate.
  - destruct H as [_ H]; [|exact H].
    vm_compute in Hm. injection Hm as <-. reflexivity.
Defined.

(** X8. Clearing the log does not clear the dedup table: an intake of a
    video that was suppressed before the clear is still suppressed after
    it, and the log stays empty. *)
Theorem clear_keeps_dedup (w : world) (videoId url : string) :
  suppressed w videoId = true ->
  let cleared := after (clear_click true) w in
  lastLogged (local cleared) = lastLogged (local w)
  /\ suppressed cleared videoId = true
  /\ log_of (after (logYouTubeWatch videoId url) cleared) = []
  /\ count_fetches (events_of (logYouTubeWatch videoId url) cleared) = 0%nat.
Proof.
  intros Hsupp. cbv zeta.
  assert (Hs : suppressed (after (clear_click true) w) videoId = true) by exact Hsupp.
  split; [reflexivity|]. split; [exact Hs|].
  unfold after at 1. rewrite (intake_suppressed _ _ _ Hs). split; [reflexivity|].
  rewrite (events_of_app _ _ [EvSyncGet; EvLocalGet "lastLogged"]); [reflexivity|].
  unfold after at 1. rewrite (intake_suppressed _ _ _ Hs). cbn. rewrite <- !app_assoc.
  reflexivity.
Qed.

Lemma clear_keeps_dedup_witness :
  let w := after (logYouTubeWatch "abc123" "https://www.youtube.com/watch?v=abc123")
                 (fresh_install offline 0) in
  log_of (after (logYouTubeWatch "abc123" "https://www.youtube.com/watch?v=abc123")
                (after (clear_click true) w)) = [].
Proof.
  intros w.
  destruct (clear_keeps_dedup w "abc123" "https://www.youtube.com/watch?v=abc123")
    as (_ & _ & H & _).
  - vm_compute. reflexivity.
  - exact H.
Defined.

(** ** What a message keeps *)

Lemma kept_by_worker_refl (w : world) : kept_by_worker w w.
Proof. unfold kept_by_worker. repeat split; auto; lia. Qed.

(** X9. Handling one message, the intake that it starts included and no
    other intake going on meanwhile: nothing is raised; entries of the
    category cache are never removed or changed, the playlist links are
    not touched, no key leaves the dedup table, the log never holds more
    than 5000 entries (or than it held before, if that was more) and
    gains at most one entry, and a profile name that is not empty never
    becomes empty; a message of another type changes nothing. *)
Theorem onMessage_invariants (msg : message) (w : world) :
  returned (onMessage msg) w = Some tt
  /\ kept_by_worker w (after (onMessage msg) w)
  /\ (List.length (log_of (after (onMessage msg) w)) <= S (List.length (log_of w)))%nat
  /\ after (onMessage OtherMessage) w = w.
Proof.
  split; [|split; [|split; [|reflexivity]]].
  { destruct msg as [videoId url|msg_apiKey msg_profile|]; [|reflexivity..].
    unfold returned. cbn [onMessage].
    destruct (intake_cases w videoId url) as (-> & _). reflexivity. }
  all: destruct msg as [videoId url|msg_apiKey msg_profile|].
  - unfold after. cbn [onMessage].
    destruct (intake_cases w videoId url) as (_ & H2 & H3 & H4 & H5).
    unfold kept_by_worker, log_of, config_of. rewrite H2.
    destruct H5 as [->|(_ & meta & cat & ext & t & mark & ->)].
    + repeat split; auto; lia.
    + cbn [watchLog lastLogged playlistLinks].
      change (default [] (Some ?x)) with x.
      set (e := make_entry _ _ _ _ _ _ _).
      pose proof (push_and_trim_length 5000 ltac:(lia) (watchLog (local w)) e) as Hlen.
      split; [exact H4|]. split; [reflexivity|]. split; [exact H3|].
      split; [rewrite dom_insert_L; set_solver|].
      split; [lia | auto].
  - unfold after. cbn. unfold kept_by_worker, log_of, config_of. cbn.
    repeat split; auto; try lia.
    intros _. destruct (or_null msg_profile) as [p|] eqn:E; [|discriminate].
    cbn. intros ->. destruct msg_profile as [[|? ?]|]; discriminate.
  - apply kept_by_worker_refl.
  - unfold after. cbn [onMessage].
    destruct (intake_cases w videoId url) as (_ & _ & _ & _ & H5).
    unfold log_of.
    destruct H5 as [->|(_ & meta & cat & ext & t & mark & ->)]; [lia|].
    cbn [watchLog]. change (default [] (Some ?x)) with x.
    rewrite push_and_trim_drop by lia. cbv zeta.
    rewrite length_drop, length_app. cbn [List.length]. unfold surplus. lia.
  - change (log_of (after (onMessage (YTL_SET_CONFIG msg_apiKey msg_profile)) w))
      with (log_of w). lia.
  - change (log_of (after (onMessage OtherMessage) w)) with (log_of w). lia.
Qed.

(** ** [uniquePreserveOrder] *)

Lemma unique_loop_elem (seen : gset string) (arr : list string) (x : string) :
  x ∈ unique_loop seen arr <-> x ∈ arr /\ x ∉ seen.
Proof.
  revert seen. induction arr as [|y arr IH]; intros seen; cbn [unique_loop].
  - split; [intros H; now apply elem_of_nil in H | intros [H _]; now apply elem_of_nil in H].
  - destruct (decide (y ∈ seen)) as [Hy|Hy].
    + rewrite IH, elem_of_cons. split; [tauto|].
      intros [[->|H] Hs]; [contradiction | tauto].
    + rewrite !elem_of_cons, IH, elem_of_union, elem_of_singleton.
      destruct (decide (x = y)) as [->|Hne]; tauto.
Qed.

Lemma unique_loop_NoDup (seen : gset string) (arr : list string) :
  NoDup (unique_loop seen arr).
Proof.
  revert seen. induction arr as [|y arr IH]; intros seen; cbn [unique_loop].
  - constructor.
  - destruct (decide (y ∈ seen)); [apply IH|].
    constructor; [|apply IH]. rewrite unique_loop_elem, elem_of_union, elem_of_singleton.
    tauto.
Qed.

Lemma unique_loop_sublist (seen : gset string) (arr : list string) :
  sublist (unique_loop seen arr) arr.
Proof.
  revert seen. induction arr as [|y arr IH]; intros seen; cbn [unique_loop].
  - constructor.
  - destruct (decide (y ∈ seen)); [apply sublist_cons | apply sublist_skip]; apply IH.
Qed.

Lemma unique_loop_snoc (seen : gset string) (arr : list string) (x : string) :
  unique_loop seen (arr ++ [x])
  = (unique_loop seen arr
     ++ (if decide (x ∈ seen \/ x ∈ arr) then [] else [x]))%list.
Proof.
  revert seen. induction arr as [|y arr IH]; intros seen.
  - cbn. destruct (decide (x ∈ seen)) as [H1|H1], (decide (x ∈ seen \/ x ∈ [])) as [H2|H2];
      try reflexivity; exfalso.
    + apply H2. now left.
    + destruct H2 as [H2|H2]; [contradiction|]. now apply elem_of_nil in H2.
  - cbn [app unique_loop]. destruct (decide (y ∈ seen)) as [Hy|Hy].
    + rewrite IH. f_equal.
      destruct (decide (x ∈ seen \/ x ∈ arr)) as [H1|H1],
               (decide (x ∈ seen \/ x ∈ y :: arr)) as [H2|H2];
        try reflexivity; exfalso; rewrite elem_of_cons in H2.
      * tauto.
      * destruct H2 as [H2|[->|H2]]; tauto.
    + rewrite IH. cbn. f_equal. f_equal.
      destruct (decide (x ∈ {[y]} ∪ seen \/ x ∈ arr)) as [H1|H1],
               (decide (x ∈ seen \/ x ∈ y :: arr)) as [H2|H2];
        try reflexivity; exfalso;
        rewrite elem_of_union, elem_of_singleton in H1; rewrite elem_of_cons in H2; tauto.
Qed.

Lemma unique_loop_fixed (seen : gset string) (arr : list string) :
  NoDup arr -> (forall x, x ∈ arr -> x ∉ seen) -> unique_loop seen arr = arr.
Proof.
  revert seen. induction arr as [|y arr IH]; intros seen Hnd Hseen; [reflexivity|].
  cbn [unique_loop]. apply NoDup_cons in Hnd as [Hy Hnd].
  destruct (decide (y ∈ seen)) as [Hin|_].
  { exfalso. apply (Hseen y); [apply elem_of_cons; now left | exact Hin]. }
  f_equal. apply IH; [exact Hnd|]. intros x Hx.
  rewrite elem_of_union, elem_of_singleton. intros [->|Hs]; [contradiction|].
  apply (Hseen x); [apply elem_of_cons; now right | exact Hs].
Qed.

(** X10. [uniquePreserveOrder(arr)] has the elements of [arr], each once, in
    the order of their first occurrence: a new element at the end of
    [arr] goes to the end of the result, an element seen before changes
    nothing.  An array without duplicates is returned as it is, so the
    function applied twice gives what it gives once. *)
Theorem uniquePreserveOrder_spec (arr : list string) (x : string) :
  NoDup (uniquePreserveOrder arr)
  /\ (x ∈ uniquePreserveOrder arr <-> x ∈ arr)
  /\ sublist (uniquePreserveOrder arr) arr
  /\ uniquePreserveOrder (arr ++ [x])
     = (uniquePreserveOrder arr ++ (if decide (x ∈ arr) then [] else [x]))%list
  /\ (NoDup arr <-> uniquePreserveOrder arr = arr)
  /\ uniquePreserveOrder (uniquePreserveOrder arr) = uniquePreserveOrder arr.
Proof.
  unfold uniquePreserveOrder.
  split; [apply unique_loop_NoDup|].
  split; [rewrite unique_loop_elem; split; [tauto|]; intros H; split; [exact H|];
          apply not_elem_of_empty|].
  split; [apply unique_loop_sublist|].
  split.
  { rewrite unique_loop_snoc.
    destruct (decide (x ∈ ∅ \/ x ∈ arr)) as [H1|H1], (decide (x ∈ arr)) as [H2|H2];
      try reflexivity; exfalso; [|tauto].
    destruct H1 as [H1|H1]; [now apply not_elem_of_empty in H1 | contradiction]. }
  split.
  - split.
    + intros Hnd. apply unique_loop_fixed; [exact Hnd|].
      intros y _. apply not_elem_of_empty.
    + intros <-. apply unique_loop_NoDup.
  - apply unique_loop_fixed; [apply unique_loop_NoDup|].
    intros y _. apply not_elem_of_empty.
Qed.

(** ** [groupByDay] *)

Section GroupByDay.

Variable isoDay : Z -> string.

Abbreviation day := (day_of isoDay).
Abbreviation of_day := (rows_of_day isoDay).

Lemma of_day_snoc (d : string) (rows : list entry) (r : entry) :
  of_day d (rows ++ [r]) = (of_day d rows ++ (if String.eqb (day r) d then [r] else []))%list.
Proof. unfold rows_of_day. rewrite List.filter_app. cbn. reflexivity. Qed.

Lemma of_day_none (d : string) (rows : list entry) :
  d ∉ List.map day rows -> of_day d rows = [].
Proof.
  induction rows as [|r rows IH]; intros Hd; [reflexivity|].
  cbn [List.map] in Hd. rewrite not_elem_of_cons in Hd. destruct Hd as [Hne Hd].
  unfold rows_of_day in *. cbn [List.filter].
  destruct (String.eqb_spec (day r) d) as [E|_]; [congruence|]. now apply IH.
Qed.

Lemma push_day_groups (days : list string) (rows : list entry) (r : entry) :
  NoDup days ->
  push_day (day r) r (groups_of isoDay days rows)
  = (groups_of isoDay days (rows ++ [r])
     ++ (if decide (day r ∈ days) then [] else [(day r, [r])]))%list.
Proof.
  unfold groups_of.
  induction days as [|d days IH]; intros Hnd; [reflexivity|].
  apply NoDup_cons in Hnd as [Hd Hnd].
  cbn [List.map push_day app]. rewrite of_day_snoc.
  destruct (String.eqb_spec d (day r)) as [E|E].
  - subst d. rewrite String.eqb_refl.
    destruct (decide (day r ∈ day r :: days)) as [_|Hn];
      [|exfalso; apply Hn, elem_of_cons; now left].
    rewrite app_nil_r. f_equal.
    apply List.map_ext_in. intros d' Hd'. f_equal.
    rewrite of_day_snoc.
    destruct (String.eqb_spec (day r) d') as [E'|_]; [|now rewrite app_nil_r].
    exfalso. apply Hd. rewrite E'. now apply list_elem_of_In.
  - destruct (String.eqb_spec (day r) d) as [E'|_]; [congruence|].
    rewrite app_nil_r, (IH Hnd). cbn [app]. f_equal. f_equal.
    destruct (decide (day r ∈ days)) as [H1|H1], (decide (day r ∈ d :: days)) as [H2|H2];
      try reflexivity; exfalso; rewrite elem_of_cons in H2; [tauto|].
    destruct H2 as [H2|H2]; [congruence | contradiction].
Qed.

Lemma groupByDay_groups (rows : list entry) :
  groupByDay isoDay rows
  = groups_of isoDay (uniquePreserveOrder (List.map day rows)) rows.
Proof.
  induction rows as [|r rows IH] using rev_ind; [reflexivity|].
  unfold groupByDay in *. rewrite foldl_snoc, IH.
  change (isoDay (e_watchedAt r)) with (day r).
  rewrite push_day_groups by apply unique_loop_NoDup.
  rewrite List.map_app. cbn [List.map].
  unfold uniquePreserveOrder. rewrite unique_loop_snoc.
  set (days := unique_loop ∅ (List.map day rows)).
  assert (Hin : day r ∈ days <-> day r ∈ List.map day rows).
  { unfold days. rewrite unique_loop_elem. split; [tauto|]. intros H. split; [exact H|].
    apply not_elem_of_empty. }
  destruct (decide (day r ∈ days)) as [H1|H1],
           (decide (day r ∈ ∅ \/ day r ∈ List.map day rows)) as [H2|H2].
  - now rewrite !app_nil_r.
  - exfalso. apply H2. right. now apply Hin.
  - exfalso. destruct H2 as [H2|H2]; [now apply not_elem_of_empty in H2|]. now apply H1, Hin.
  - unfold groups_of. rewrite List.map_app. cbn [List.map]. f_equal. f_equal. f_equal.
    rewrite of_day_snoc, String.eqb_refl.
    rewrite of_day_none; [reflexivity|]. intros H. now apply H1, Hin.
Qed.

(** X11. [groupByDay(rows)]: its keys are the days of the rows, each once, in
    the order in which the days first occur; under each day are exactly
    the rows of that day, in the order of [rows]; no group is empty and
    every row is in the group of its day. *)
Theorem groupByDay_spec (rows : list entry) :
  let by_day := groupByDay isoDay rows in
  List.map fst by_day = uniquePreserveOrder (List.map (fun r => isoDay (e_watchedAt r)) rows)
  /\ NoDup (List.map fst by_day)
  /\ (forall d g, (d, g) ∈ by_day ->
        g = List.filter (fun r => String.eqb (isoDay (e_watchedAt r)) d) rows /\ g <> [])
  /\ (forall r, r ∈ rows -> exists g, (isoDay (e_watchedAt r), g) ∈ by_day /\ r ∈ g).
Proof.
  cbv zeta. rewrite groupByDay_groups. unfold groups_of.
  change (fun r : entry => isoDay (e_watchedAt r)) with day.
  set (days := uniquePreserveOrder (List.map day rows)).
  assert (Hdays : forall d, d ∈ days <-> d ∈ List.map day rows).
  { intros d. unfold days, uniquePreserveOrder. rewrite unique_loop_elem.
    split; [tauto|]. intros H. split; [exact H | apply not_elem_of_empty]. }
  assert (Hfst : List.map fst (List.map (fun d => (d, of_day d rows)) days) = days).
  { rewrite List.map_map. cbn. apply List.map_id. }
  split; [exact Hfst|]. split; [rewrite Hfst; apply unique_loop_NoDup|]. split.
  - intros d g Hg. apply list_elem_of_In, List.in_map_iff in Hg as (d' & [= <- <-] & Hd').
    split; [reflexivity|].
    apply list_elem_of_In, Hdays, list_elem_of_In, List.in_map_iff in Hd' as (r & Hr & Hin).
    intros Hempty.
    assert (Hmem : List.In r (of_day (day r) rows)).
    { apply List.filter_In. split; [exact Hin | apply String.eqb_refl]. }
    rewrite Hr, Hempty in Hmem. exact Hmem.
  - intros r Hr. exists (of_day (day r) rows). split.
    + apply list_elem_of_In, List.in_map_iff. exists (day r). split; [reflexivity|].
      apply list_elem_of_In, Hdays, list_elem_of_In, List.in_map. now apply list_elem_of_In.
    + apply list_elem_of_In, List.filter_In. split; [now apply list_elem_of_In|].
      apply String.eqb_refl.
Qed.

End GroupByDay.

(** ** [applyFilters] *)

Lemma insert_newest_first_perm (r : entry) (out : list entry) :
  Permutation (insert_newest_first r out) (r :: out).
Proof.
  induction out as [|x out IH]; cbn [insert_newest_first]; [reflexivity|].
  destruct (e_watchedAt r <? e_watchedAt x)%Z; [|reflexivity].
  rewrite IH. apply perm_swap.
Qed.

Lemma sort_newest_first_perm (rows : list entry) :
  Permutation (sort_newest_first rows) rows.
Proof.
  induction rows as [|r rows IH]; [reflexivity|].
  cbn [sort_newest_first foldr]. fold (sort_newest_first rows).
  rewrite insert_newest_first_perm. now constructor.
Qed.

Lemma insert_newest_first_sorted (r : entry) (out : list entry) :
  newest_first out -> newest_first (insert_newest_first r out).
Proof.
  unfold newest_first.
  induction out as [|x out IH]; intros Hs; cbn [insert_newest_first].
  - repeat constructor.
  - apply StronglySorted_inv in Hs as [Hs Hx].
    destruct (Z.ltb_spec (e_watchedAt r) (e_watchedAt x)) as [Hlt|Hge].
    + constructor; [now apply IH|].
      rewrite (insert_newest_first_perm r out). constructor; [lia | exact Hx].
    + constructor; [now constructor|].
      constructor; [lia|]. eapply Forall_impl; [exact Hx|]. cbn. intros y Hy. lia.
Qed.

Lemma sort_newest_first_sorted (rows : list entry) : newest_first (sort_newest_first rows).
Proof.
  induction rows as [|r rows IH]; [constructor|].
  cbn [sort_newest_first foldr]. now apply insert_newest_first_sorted.
Qed.

(** The sort is stable: the rows of one instant stay in their order. *)
Lemma watched_at_insert (t : Z) (r : entry) (out : list entry) :
  watched_at t (insert_newest_first r out) = watched_at t (r :: out).
Proof.
  unfold watched_at.
  induction out as [|x out IH]; cbn [insert_newest_first]; [reflexivity|].
  destruct (Z.ltb_spec (e_watchedAt r) (e_watchedAt x)) as [Hlt|Hge]; [|reflexivity].
  cbn [List.filter] in *. rewrite IH.
  destruct (Z.eqb_spec (e_watchedAt x) t), (Z.eqb_spec (e_watchedAt r) t);
    try reflexivity; lia.
Qed.

Lemma watched_at_sort (t : Z) (rows : list entry) :
  watched_at t (sort_newest_first rows) = watched_at t rows.
Proof.
  induction rows as [|r rows IH]; [reflexivity|].
  cbn [sort_newest_first foldr]. fold (sort_newest_first rows).
  rewrite watched_at_insert. unfold watched_at in *. cbn [List.filter]. now rewrite IH.
Qed.

Lemma filter_filter_comm {A} (f g : A -> bool) (l : list A) :
  List.filter f (List.filter g l) = List.filter g (List.filter f l).
Proof.
  induction l as [|x l IH]; [reflexivity|].
  cbn [List.filter]. destruct (f x) eqn:Ef, (g x) eqn:Eg; cbn [List.filter];
    rewrite ?Ef, ?Eg, IH; reflexivity.
Qed.

Lemma filter_filter_andb {A} (f g : A -> bool) (l : list A) :
  List.filter g (List.filter f l) = List.filter (fun x => (f x && g x)%bool) l.
Proof.
  induction l as [|x l IH]; [reflexivity|].
  cbn [List.filter]. destruct (f x) eqn:Ef; cbn [List.filter andb]; rewrite ?IH; reflexivity.
Qed.

Lemma filter_true {A} (l : list A) : List.filter (fun _ => true) l = l.
Proof. induction l as [|x l IH]; [reflexivity|]. cbn. now rewrite IH. Qed.

Lemma filter_Permutation_bool {A} (f : A -> bool) (l l' : list A) :
  Permutation l l' -> Permutation (List.filter f l) (List.filter f l').
Proof.
  induction 1 as [|x l l' _ IH|x y l|l1 l2 l3 _ IH1 _ IH2]; cbn [List.filter].
  - reflexivity.
  - destruct (f x); [now constructor | exact IH].
  - destruct (f x), (f y); try reflexivity. apply perm_swap.
  - now rewrite IH1.
Qed.

Lemma filter_newest_first (f : entry -> bool) (rows : list entry) :
  newest_first rows -> newest_first (List.filter f rows).
Proof.
  unfold newest_first. induction 1 as [|x rows Hs IH Hx]; cbn [List.filter]; [constructor|].
  destruct (f x); [|exact IH]. constructor; [exact IH|].
  apply Forall_forall. intros y Hy.
  apply list_elem_of_In, List.filter_In in Hy as [Hy _].
  rewrite Forall_forall in Hx. apply Hx. now apply list_elem_of_In.
Qed.

Lemma filter_if {A} (b : bool) (f : A -> bool) (l : list A) :
  (if b then List.filter f l else l) = List.filter (fun x => if b then f x else true) l.
Proof. destruct b; [reflexivity | symmetry; apply filter_true]. Qed.

Section Filters.

Variable toLowerCase : string -> string.
Variables (q : string) (onlyShorts onlyKids : bool).

Lemma applyFilters_filter (rows : list entry) :
  applyFilters toLowerCase q onlyShorts onlyKids rows
  = List.filter (kept_by_filters toLowerCase q onlyShorts onlyKids) (sort_newest_first rows).
Proof.
  unfold applyFilters. cbv zeta.
  rewrite (filter_if (truthy (Some q))), (filter_if onlyShorts), (filter_if onlyKids).
  rewrite !filter_filter_andb. apply List.filter_ext. intros r.
  unfold kept_by_filters. now rewrite andb_assoc.
Qed.

(** X12. [applyFilters(rows)] returns the rows that pass the active filters
    (the text in the title or the channel title, shorts only, made for
    kids only), none else and none twice, from the newest to the oldest;
    rows watched at the same instant keep the order they have in the
    log.  Without a text and with both boxes unchecked no row is lost. *)
Theorem applyFilters_spec (rows : list entry) (t : Z) :
  let keep := kept_by_filters toLowerCase q onlyShorts onlyKids in
  let out := applyFilters toLowerCase q onlyShorts onlyKids rows in
  Permutation out (List.filter keep rows)
  /\ newest_first out
  /\ watched_at t out = watched_at t (List.filter keep rows)
  /\ (forall r, r ∈ out <-> r ∈ rows /\ keep r = true)
  /\ (q = "" -> onlyShorts = false -> onlyKids = false -> Permutation out rows).
Proof.
  cbv zeta. rewrite applyFilters_filter.
  set (keep := kept_by_filters toLowerCase q onlyShorts onlyKids).
  split; [apply filter_Permutation_bool, sort_newest_first_perm|].
  split; [apply filter_newest_first, sort_newest_first_sorted|].
  split.
  { unfold watched_at. rewrite filter_filter_comm, (filter_filter_comm _ keep rows).
    f_equal. apply watched_at_sort. }
  split.
  - intros r. rewrite !list_elem_of_In, List.filter_In, <- !list_elem_of_In.
    now rewrite (sort_newest_first_perm rows).
  - intros -> -> ->. unfold keep, kept_by_filters. cbn.
    rewrite filter_true. apply sort_newest_first_perm.
Qed.

End Filters.

(** ** The playlist link *)

(** X13. The "generate playlist" handler never touches the log or the dedup
    table.  When no entry of the log has a video id it does nothing;
    otherwise it opens the url of the first 50 ids of the log, the oldest
    ones, and appends one link to the stored links, with that url, the
    number of ids in it (between 1 and 50) and the current time. *)
Theorem generatePlaylist_click_spec (w : world) :
  let ids := List.filter (fun id => truthy (Some id)) (List.map e_videoId (log_of w)) in
  let r := generatePlaylist_click w in
  watchLog (local (snd r)) = watchLog (local w)
  /\ lastLogged (local (snd r)) = lastLogged (local w)
  /\ match ids with
     | [] => fst r = Ok None /\ playlistLinks (local (snd r)) = playlistLinks (local w)
     | _ :: _ =>
         exists link,
           fst r = Ok (Some (pl_url link))
           /\ links_of (snd r) = (links_of w ++ [link])%list
           /\ pl_url link
              = "https://www.youtube.com/watch_videos?video_ids="
                ++ Array_join "," (take 50 ids)
           /\ pl_count link = Z.min 50 (Z.of_nat (List.length ids))
           /\ 1 <= pl_count link <= 50
           /\ pl_createdAt link = now w
     end.
Proof.
  cbv zeta.
  set (w1 := emit (EvLocalGet "watchLog") w).
  assert (Hrun : generatePlaylist_click w
                 = match List.filter (fun id => truthy (Some id))
                                     (List.map e_videoId (log_of w)) with
                   | [] => (Ok None, w1)
                   | id :: ids =>
                       let first50 := take 50 (id :: ids) in
                       let url := "https://www.youtube.com/watch_videos?video_ids="
                                  ++ Array_join "," first50 in
                       (Ok (Some url),
                        snd (rememberPlaylistLink url (Z.of_nat (List.length first50)) w1))
                   end).
  { unfold generatePlaylist_click, bind, tell. cbv beta iota. fold w1.
    change (default [] (watchLog (local w1))) with (log_of w).
    now destruct (List.filter _ _). }
  rewrite Hrun. clear Hrun.
  destruct (List.filter _ (List.map e_videoId (log_of w))) as [|id ids].
  - repeat split.
  - cbv zeta. split; [reflexivity|]. split; [reflexivity|].
    exists {| pl_url := "https://www.youtube.com/watch_videos?video_ids="
                        ++ Array_join "," (take 50 (id :: ids));
              pl_count := Z.of_nat (List.length (take 50 (id :: ids)));
              pl_createdAt := now w |}.
    split; [reflexivity|]. split; [reflexivity|]. split; [reflexivity|].
    cbn [pl_count pl_createdAt]. rewrite length_take. cbn [List.length].
    repeat split; lia.
Qed.

(** ** [fmtDur] *)

(** X14. For a duration of [sec] seconds, 0 <= [sec] < 2^53 (the range
    in which the numbers of the code are exact), [fmtDur] shows the
    hours, the minutes below 60 and the seconds below 60 that add up to
    [sec]: the seconds alone below one minute, the minutes and the
    seconds below one hour, all three from one hour on.  For [null] it
    shows nothing. *)
Theorem fmtDur_spec (sec : Z) :
  0 <= sec < 2 ^ 53 ->
  let h := sec / 3600 in
  let m := (sec mod 3600) / 60 in
  let s := sec mod 60 in
  h * 3600 + m * 60 + s = sec /\ 0 <= h /\ 0 <= m < 60 /\ 0 <= s < 60
  /\ fmtDur (Some sec)
     = Array_join " "
         (if (sec <? 60)%Z then [Number_toString s ++ "s"]
          else if (sec <? 3600)%Z then [Number_toString m ++ "m"; Number_toString s ++ "s"]
          else [Number_toString h ++ "h"; Number_toString m ++ "m"; Number_toString s ++ "s"])
  /\ fmtDur None = "".
Proof.
  intros [Hsec _]. cbv zeta.
  assert (Hh : 0 <= sec / 3600) by (apply Z.div_pos; lia).
  assert (Hr : 0 <= sec mod 3600 < 3600) by (apply Z.mod_pos_bound; lia).
  assert (Hm : 0 <= (sec mod 3600) / 60 < 60).
  { split; [apply Z.div_pos; lia | apply Z.div_lt_upper_bound; lia]. }
  assert (Hs : 0 <= sec mod 60 < 60) by (apply Z.mod_pos_bound; lia).
  assert (Hs' : sec mod 60 = (sec mod 3600) mod 60).
  { symmetry. apply Z.mod_mod_divide. now exists 60. }
  assert (Hsum : sec / 3600 * 3600 + (sec mod 3600) / 60 * 60 + sec mod 60 = sec).
  { pose proof (Z.div_mod sec 3600 ltac:(lia)).
    pose proof (Z.div_mod (sec mod 3600) 60 ltac:(lia)). lia. }
  split; [exact Hsum|]. split; [exact Hh|]. split; [exact Hm|]. split; [exact Hs|].
  split; [|reflexivity].
  unfold fmtDur. cbv zeta. rewrite !Z.rem_mod_nonneg by lia.
  destruct (Z.ltb_spec sec 60) as [H60|H60].
  - replace (sec / 3600) with 0 by (symmetry; apply Z.div_small; lia).
    replace (sec mod 3600) with sec by (symmetry; apply Z.mod_small; lia).
    replace (sec / 60) with 0 by (symmetry; apply Z.div_small; lia).
    reflexivity.
  - destruct (Z.ltb_spec sec 3600) as [H3600|H3600].
    + replace (sec / 3600) with 0 by (symmetry; apply Z.div_small; lia).
      replace (sec mod 3600) with sec by (symmetry; apply Z.mod_small; lia).
      destruct (Z.eqb_spec (sec / 60) 0) as [E|_]; [|reflexivity].
      exfalso. pose proof (Z.div_mod sec 60 ltac:(lia)). lia.
    + destruct (Z.eqb_spec (sec / 3600) 0) as [E|_].
      * exfalso. pose proof (Z.div_mod sec 3600 ltac:(lia)). lia.
      * rewrite andb_false_r. reflexivity.
Qed.

Lemma fmtDur_spec_witness : fmtDur (Some 3723) = "1h 2m 3s".
Proof.
  destruct (fmtDur_spec 3723) as (_ & _ & _ & _ & H & _); [split; [lia | reflexivity]|].
  rewrite H. reflexivity.
Defined.

(** ** The cells of a CSV line *)

Lemma cons_char_cons (a : ascii) (c : string) (cells : option (list string)) :
  cons_char a <$> (cons c <$> cells) = cons (String a c) <$> cells.
Proof. now destruct cells. Qed.

(** Reading a cell that is followed by the closing quote and the rest
    of the line. *)
Lemma read_cells_cell (c : string) :
  read_cells (double_quotes c ++ String dquote EmptyString) = Some [c]
  /\ forall tail,
       read_cells (double_quotes c ++ String dquote (String "," (String dquote tail)))
       = cons c <$> read_cells tail.
Proof.
  induction c as [|a c [IH1 IH2]].
  - split; [reflexivity|]. intros tail. reflexivity.
  - cbn [double_quotes]. destruct (Ascii.eqb a dquote) eqn:E.
    + apply Ascii.eqb_eq in E. subst a. split.
      * cbn [String.append read_cells]. rewrite !Ascii.eqb_refl, IH1. reflexivity.
      * intros tail. cbn [String.append read_cells]. rewrite !Ascii.eqb_refl, IH2.
        apply cons_char_cons.
    + split.
      * cbn [String.append read_cells]. rewrite E, IH1. reflexivity.
      * intros tail. cbn [String.append read_cells]. rewrite E, IH2.
        apply cons_char_cons.
Qed.

Lemma read_cells_line (c : option string) (cells : list (option string)) :
  exists tail,
    csv_line (c :: cells) = String dquote tail
    /\ read_cells tail = Some (default "" c :: List.map (default "") cells).
Proof.
  revert c. induction cells as [|c' cells IH]; intros c.
  - eexists. split; [reflexivity|]. apply read_cells_cell.
  - destruct (IH c') as (tail & Hline & Htail).
    unfold csv_line in *. cbn [List.map Array_join] in *. rewrite Hline.
    exists (double_quotes (default "" c) ++ String dquote (String "," (String dquote tail))).
    split.
    + unfold esc. cbn [String.append]. now rewrite component_text_app.
    + rewrite (proj2 (read_cells_cell (default "" c))), Htail. reflexivity.
Qed.

(** X15. A data line of [toCsv] can be read back: whatever the cells hold
    (commas, double quotes, line breaks), a reader of quoted cells finds
    the same cells in the same order, a [null] cell as the empty string;
    so two rows with different cells never give the same line. *)
Theorem csv_line_round_trip (cells cells' : list (option string)) :
  read_csv_line (csv_line cells) = Some (List.map (default "") cells)
  /\ (csv_line cells = csv_line cells' ->
      List.map (default "") cells = List.map (default "") cells').
Proof.
  assert (H : forall l, read_csv_line (csv_line l) = Some (List.map (default "") l)).
  { intros [|c l]; [reflexivity|].
    destruct (read_cells_line c l) as (tail & -> & Htail).
    cbn [read_csv_line]. now rewrite Ascii.eqb_refl. }
  split; [apply H|].
  intros E. pose proof (H cells) as H1. rewrite E, H in H1. congruence.
Qed.

(** ** The content script *)

Lemma strip_prefix_spec (p s t : string) : strip_prefix p s = Some t -> s = p ++ t.
Proof.
  revert s. induction p as [|a p IH]; intros s H; cbn [strip_prefix] in H.
  - now injection H as ->.
  - destruct s as [|b s]; [discriminate|].
    destruct (Ascii.eqb_spec a b) as [->|]; [|discriminate].
    cbn [String.append]. f_equal. now apply IH.
Qed.

Lemma span_id_spec (s : string) :
  s = fst (span_id s) ++ snd (span_id s) /\ all_id_chars (fst (span_id s)) = true.
Proof.
  induction s as [|a s [IH1 IH2]]; [now split|].
  cbn [span_id]. destruct (is_id_char a) eqn:E; [|now split].
  destruct (span_id s) as [run rest]. cbn [fst snd String.append all_id_chars] in *.
  rewrite E, IH2. split; [now f_equal | reflexivity].
Qed.

Lemma shorts_here_spec (s id : string) :
  shorts_here s = Some id ->
  (6 <= String.length id)%nat /\ all_id_chars id = true
  /\ exists post, s = "/shorts/" ++ id ++ post.
Proof.
  unfold shorts_here. destruct (strip_prefix "/shorts/" s) as [t|] eqn:E; [|discriminate].
  cbv zeta. destruct (Nat.leb_spec 6 (String.length (fst (span_id t)))) as [Hlen|]; [|discriminate].
  intros [= <-]. destruct (span_id_spec t) as [Ht Hall].
  split; [exact Hlen|]. split; [exact Hall|].
  exists (snd (span_id t)). rewrite <- Ht. now apply strip_prefix_spec.
Qed.

Lemma shorts_match_found (s id : string) :
  shorts_match s = Some id ->
  (6 <= String.length id)%nat /\ all_id_chars id = true
  /\ exists pre post, s = pre ++ "/shorts/" ++ id ++ post.
Proof.
  induction s as [|a s IH]; cbn [shorts_match].
  - destruct (shorts_here "") as [x|] eqn:E; [|discriminate]. intros [= ->].
    destruct (shorts_here_spec _ _ E) as (H1 & H2 & post & H3). repeat split; auto.
    now exists "", post.
  - destruct (shorts_here (String a s)) as [x|] eqn:E.
    + intros [= ->]. destruct (shorts_here_spec _ _ E) as (H1 & H2 & post & H3).
      repeat split; auto. now exists "", post.
    + intros H. destruct (IH H) as (H1 & H2 & pre & post & ->). repeat split; auto.
      now exists (String a pre), post.
Qed.

Section ContentScript.

Variable searchParam_v : string -> option string.

(** X16. On a location without "/watch", an id that [getCurrentVideo] finds is
    the capture of the shorts pattern: at least 6 characters of
    [[a-zA-Z0-9_-]] that follow "/shorts/" in the location; the worker
    then infers [isShorts] for that url whatever the duration.  On a
    location with "/watch" the id is the parameter [v], also when the
    location has "/shorts/" in it. *)
Theorem getCurrentVideo_shorts (href id : string) (durationSeconds : option Z) :
  Str.includes "/watch" href = false ->
  getCurrentVideo searchParam_v href = Some id ->
  (6 <= String.length id)%nat /\ all_id_chars id = true
  /\ (exists pre post, href = pre ++ "/shorts/" ++ id ++ post)
  /\ inferIsShorts (Some href) durationSeconds = true
  /\ forall href', Str.includes "/watch" href' = true ->
                   getCurrentVideo searchParam_v href' = searchParam_v href'.
Proof.
  intros Hwatch Hid. unfold getCurrentVideo in Hid. rewrite Hwatch in Hid.
  destruct (Str.includes "/shorts/" href) eqn:Hs; [|discriminate].
  destruct (shorts_match_found _ _ Hid) as (H1 & H2 & H3).
  split; [exact H1|]. split; [exact H2|]. split; [exact H3|]. split.
  - unfold inferIsShorts. now rewrite Hs.
  - intros href' H. unfold getCurrentVideo. now rewrite H.
Qed.

Lemma maybeSend_cases (href : string) (st : content_state) :
  maybeSend searchParam_v href st = st
  \/ exists videoId,
       getCurrentVideo searchParam_v href = Some videoId /\ videoId <> ""
       /\ fst <$> lastSent st <> Some videoId
       /\ maybeSend searchParam_v href st
          = {| lastSent := Some (videoId, href);
               messages := (messages st ++ [(videoId, href)])%list |}.
Proof.
  unfold maybeSend.
  destruct (getCurrentVideo searchParam_v href) as [[|a id]|] eqn:E; cbn [or_null];
    [now left| |now left].
  destruct (bool_decide_reflect (fst <$> lastSent st = Some (String a id))) as [H|H];
    [now left|].
  right. exists (String a id). repeat split; auto; discriminate.
Qed.

(** What the content script keeps while the page moves. *)
Lemma visit_invariant (hrefs : list string) (st : content_state) :
  fst <$> lastSent st = fst <$> last (messages st) ->
  no_repeat (List.map fst (messages st)) ->
  Forall (fun m => fst m <> "" /\ getCurrentVideo searchParam_v (snd m) = Some (fst m))
         (messages st) ->
  let st' := visit searchParam_v hrefs st in
  fst <$> lastSent st' = fst <$> last (messages st')
  /\ no_repeat (List.map fst (messages st'))
  /\ Forall (fun m => fst m <> "" /\ getCurrentVideo searchParam_v (snd m) = Some (fst m))
            (messages st')
  /\ (List.length (messages st') <= List.length (messages st) + List.length hrefs)%nat.
Proof.
  revert st. induction hrefs as [|href hrefs IH]; intros st H1 H2 H3; cbv zeta.
  - cbn. repeat split; auto. lia.
  - change (visit searchParam_v (href :: hrefs) st)
      with (visit searchParam_v hrefs (maybeSend searchParam_v href st)).
    destruct (maybeSend_cases href st) as [->|(id & Hid & Hne & Hlast & ->)].
    + destruct (IH st H1 H2 H3) as (A & B & C & D). repeat split; auto. cbn. lia.
    + match goal with |- context [visit _ hrefs ?s] => specialize (IH s) end.
      cbn [lastSent messages] in IH. cbv zeta in IH.
      destruct IH as (A & B & C & D).
      * rewrite last_snoc. reflexivity.
      * rewrite List.map_app. cbn [List.map fst].
        intros i a b Ha Hb.
        destruct (decide (S i < List.length (List.map fst (messages st)))%nat) as [Hi|Hi].
        -- rewrite lookup_app_l in Ha by lia. rewrite lookup_app_l in Hb by lia.
           exact (H2 i a b Ha Hb).
        -- assert (Hlen : S i = List.length (List.map fst (messages st))).
           { apply lookup_lt_Some in Hb. rewrite length_app in Hb. cbn in Hb. lia. }
           rewrite lookup_app_l in Ha by lia.
           rewrite lookup_app_r in Hb by lia.
           replace (S i - List.length (List.map fst (messages st)))%nat with 0%nat in Hb by lia.
           cbn in Hb. injection Hb as <-.
           intros ->. apply Hlast. rewrite H1.
           assert (Hl : last (List.map fst (messages st)) = Some id).
           { rewrite last_lookup, <- Hlen. exact Ha. }
           rewrite <- Hl. clear. induction (messages st) as [|m [|m' l] IHl]; try reflexivity.
           exact IHl.
      * apply Forall_app. split; [exact H3|]. constructor; [|constructor].
        cbn. now split.
      * repeat split; auto. rewrite length_app in D. cbn [List.length] in *. lia.
Qed.

(** X17. From the load of the page on, whatever locations the page goes
    through: no two messages in a row carry the same video id, every
    message carries a non-empty id, the one found at its url, and there
    is at most one message per location change; a page that stays at one
    location sends at most one message. *)
Theorem maybeSend_no_repeat (hrefs : list string) (href : string) (n : nat) :
  let sent := messages (visit searchParam_v hrefs page_loaded) in
  no_repeat (List.map fst sent)
  /\ Forall (fun m => fst m <> "" /\ getCurrentVideo searchParam_v (snd m) = Some (fst m)) sent
  /\ (List.length sent <= List.length hrefs)%nat
  /\ (List.length (messages (visit searchParam_v (replicate n href) page_loaded)) <= 1)%nat.
Proof.
  cbv zeta.
  destruct (visit_invariant hrefs page_loaded) as (_ & A & B & C);
    [reflexivity | intros i a b Ha; destruct i; discriminate | constructor |].
  split; [exact A|]. split; [exact B|]. split; [exact C|].
  destruct n as [|n]; [cbn; lia|].
  change (visit searchParam_v (replicate (S n) href) page_loaded)
    with (visit searchParam_v (replicate n href) (maybeSend searchParam_v href page_loaded)).
  assert (Hstay : forall st k, maybeSend searchParam_v href st = st ->
                               visit searchParam_v (replicate k href) st = st).
  { intros st k Hst. induction k as [|k IHk]; [reflexivity|].
    change (visit searchParam_v (replicate (S k) href) st)
      with (visit searchParam_v (replicate k href) (maybeSend searchParam_v href st)).
    now rewrite Hst. }
  destruct (maybeSend_cases href page_loaded) as [H|(id & Hid & Hne & _ & H)]; rewrite H.
  - rewrite (Hstay _ _ H). cbn. lia.
  - rewrite Hstay; [cbn; lia|].
    unfold maybeSend. rewrite Hid. destruct id as [|a id]; [congruence|].
    cbn [or_null lastSent]. now rewrite bool_decide_eq_true_2 by reflexivity.
Qed.

End ContentScript.

Lemma getCurrentVideo_shorts_witness :
  let href := "https://www.youtube.com/shorts/abc_DEF-123?feature=share" in
  getCurrentVideo (fun _ => None) href = Some "abc_DEF-123"
  /\ inferIsShorts (Some href) (Some 600) = true.
Proof.
  intros href. split; [reflexivity|].
  destruct (getCurrentVideo_shorts (fun _ => None) href "abc_DEF-123" (Some 600))
    as (_ & _ & _ & H & _).
  - reflexivity.
  - reflexivity.
  - exact H.
Defined.

(** ** First-run helpers *)

Lemma onStartup_fixed (w : world) (o : onboarding) (n : nat) :
  onStartup w o = o -> Nat.iter n (onStartup w) o = o.
Proof. intros H. induction n as [|n IH]; [reflexivity|]. now rewrite Nat.iter_succ, IH. Qed.

(** X18. However often the browser starts while the API key is missing, the
    startup helper opens the options page once, at the first start, and
    remembers it; with a key, or once the flag is set, it opens nothing.
    The install helper opens the page whenever the key is missing and
    leaves the flag alone. *)
Theorem onStartup_nags_once (w : world) (o : onboarding) (n : nat) :
  let o' := Nat.iter n (onStartup w) o in
  let hasKey := truthy (Some (apiKey (config_of w))) in
  (optionsOpened o <= optionsOpened o' <= S (optionsOpened o))%nat
  /\ (hasKey = true \/ settingsNaggedOnce o = true \/ n = 0%nat -> o' = o)
  /\ (hasKey = false -> settingsNaggedOnce o = false -> (1 <= n)%nat ->
      optionsOpened o' = S (optionsOpened o) /\ settingsNaggedOnce o' = true)
  /\ optionsOpened (onInstalled w o)
     = (optionsOpened o + (if hasKey then 0 else 1))%nat
  /\ settingsNaggedOnce (onInstalled w o) = settingsNaggedOnce o.
Proof.
  cbv zeta. change (apiKey (config_of w)) with (default "" (stored_apiKey (sync w))).
  assert (Hcases : Nat.iter n (onStartup w) o = o
                   \/ (truthy (Some (default "" (stored_apiKey (sync w)))) = false
                       /\ settingsNaggedOnce o = false /\ (1 <= n)%nat
                       /\ Nat.iter n (onStartup w) o
                          = {| settingsNaggedOnce := true;
                               optionsOpened := S (optionsOpened o) |})).
  { destruct n as [|n]; [now left|].
    destruct (truthy (Some (default "" (stored_apiKey (sync w))))) eqn:Hk.
    - left. apply onStartup_fixed. unfold onStartup. now rewrite Hk.
    - destruct (settingsNaggedOnce o) eqn:Hn.
      + left. apply onStartup_fixed. unfold onStartup. now rewrite Hk, Hn.
      + right. repeat split; [lia|].
        replace (S n) with (n + 1)%nat by lia. rewrite Nat.iter_add.
        change (Nat.iter 1 (onStartup w) o) with (onStartup w o).
        replace (onStartup w o)
          with {| settingsNaggedOnce := true; optionsOpened := S (optionsOpened o) |}
          by (unfold onStartup; now rewrite Hk, Hn).
        apply onStartup_fixed. unfold onStartup. now rewrite Hk. }
  split; [destruct Hcases as [->|(_ & _ & _ & ->)]; cbn; lia|].
  split.
  { intros H. destruct Hcases as [E|(Hk & Hn & Hpos & _)]; [exact E|].
    destruct H as [H|[H|H]]; [congruence | congruence | lia]. }
  split.
  { intros Hk Hn Hpos. destruct Hcases as [E|(_ & _ & _ & ->)]; [|now split].
    exfalso. destruct n as [|n]; [lia|].
    assert (H1 : optionsOpened (Nat.iter (S n) (onStartup w) o) = optionsOpened o)
      by now rewrite E.
    replace (S n) with (n + 1)%nat in H1 by lia. rewrite Nat.iter_add in H1.
    change (Nat.iter 1 (onStartup w) o) with (onStartup w o) in H1.
    replace (onStartup w o)
      with {| settingsNaggedOnce := true; optionsOpened := S (optionsOpened o) |} in H1
      by (unfold onStartup; now rewrite Hk, Hn).
    rewrite onStartup_fixed in H1 by (unfold onStartup; now rewrite Hk).
    cbn in H1. lia. }
  unfold onInstalled. destruct (truthy _); cbn; split; (lia || reflexivity).
Qed.

(** ** Changing the configuration *)

(** X19. After the worker has handled YTL_SET_CONFIG, [getConfig] reads what
    the message carried, with the empty key and the profile "Child" in
    place of what was missing or empty; the profile is never empty; the
    local store and the cache are not touched; and when the message
    carried no key, no intake sends a request from then on. *)
Theorem set_config_round_trip (w : world) (msg_apiKey msg_profile : option string)
    (videoId url : string) :
  let w' := after (onMessage (YTL_SET_CONFIG msg_apiKey msg_profile)) w in
  returned getConfig w'
  = Some {| apiKey := default "" (or_null msg_apiKey);
            profile := default "Child" (or_null msg_profile) |}
  /\ profile (config_of w') <> ""
  /\ truthy (Some (apiKey (config_of w'))) = truthy msg_apiKey
  /\ local w' = local w /\ categoryNameCache w' = categoryNameCache w
  /\ (truthy msg_apiKey = false ->
      count_fetches (events_of (logYouTubeWatch videoId url) w') = 0%nat).
Proof.
  cbv zeta. set (w' := after (onMessage (YTL_SET_CONFIG msg_apiKey msg_profile)) w).
  assert (Hkey : truthy (Some (apiKey (config_of w'))) = truthy msg_apiKey).
  { unfold w', after, config_of, truthy. cbn.
    destruct msg_apiKey as [[|a k]|]; reflexivity. }
  split; [reflexivity|]. split.
  { unfold w', after, config_of. cbn.
    destruct msg_profile as [[|a p]|]; discriminate. }
  split; [exact Hkey|]. split; [reflexivity|]. split; [reflexivity|].
  intros Hno. rewrite Hno in Hkey.
  destruct (suppressed w' videoId) eqn:Hsupp.
  - rewrite (events_of_app _ _ [EvSyncGet; EvLocalGet "lastLogged"]); [reflexivity|].
    unfold after at 1. rewrite (intake_suppressed _ _ _ Hsupp). cbn.
    now rewrite <- app_assoc.
  - destruct (intake_without_key w' videoId url Hkey Hsupp) as (Hevs & _).
    rewrite Hevs. reflexivity.
Qed.

Lemma set_config_round_trip_witness :
  count_fetches
    (events_of (logYouTubeWatch "abc123" "https://www.youtube.com/watch?v=abc123")
               (after (onMessage (YTL_SET_CONFIG (Some "") (Some "Teen")))
                      (configured "KEY" unavailable 0))) = 0%nat.
Proof.
  destruct (set_config_round_trip (configured "KEY" unavailable 0) (Some "") (Some "Teen")
              "abc123" "https://www.youtube.com/watch?v=abc123") as (_ & _ & _ & _ & _ & H).
  apply H. reflexivity.
Defined.

(** ** The requests of one intake *)

Lemma count_fetches_split (evs : list event) :
  count_fetches evs
  = (count_fetches_to Videos evs + count_fetches_to VideoCategories evs
     + count_fetches_to Channels evs)%nat.
Proof.
  unfold count_fetches, count_fetches_to.
  induction evs as [|ev evs IH]; [reflexivity|].
  cbn [List.filter]. destruct ev as [| | |[] ?| | |]; cbn [is_any_fetch is_fetch List.length];
    lia.
Qed.

Lemma requests_within_refl (w : world) : requests_within 0 0 w w.
Proof. split; [reflexivity|]. exists []. rewrite app_nil_r. repeat split; cbn; lia. Qed.

Lemma requests_within_weaken (c k c' k' : nat) (w w' : world) :
  (c <= c')%nat -> (k <= k')%nat -> requests_within c k w w' -> requests_within c' k' w w'.
Proof.
  intros Hc Hk (Hn & evs & Ht & H1 & H2 & H3). split; [exact Hn|].
  exists evs. repeat split; auto; lia.
Qed.

Lemma requests_within_trans (c1 k1 c2 k2 : nat) (w1 w2 w3 : world) :
  requests_within c1 k1 w1 w2 -> requests_within c2 k2 w2 w3 ->
  requests_within (c1 + c2) (k1 + k2) w1 w3.
Proof.
  intros (N1 & evs1 & T1 & A1 & B1 & C1) (N2 & evs2 & T2 & A2 & B2 & C2).
  split; [congruence|]. exists (evs1 ++ evs2)%list.
  split; [rewrite T2, T1; now rewrite app_assoc|].
  rewrite !count_fetches_to_app. repeat split; lia.
Qed.

Lemma getCategoryName_requests (w : world) (categoryId : option string) (apiKey region : string) :
  requests_within 1 0 w (snd (getCategoryName categoryId apiKey region w)).
Proof.
  unfold getCategoryName.
  destruct (or_null categoryId) as [cid|];
    [|apply (requests_within_weaken 0 0); [lia | lia | apply requests_within_refl]].
  destruct (categoryNameCache w !! _) as [c|];
    [apply (requests_within_weaken 0 0); [lia | lia | apply requests_within_refl]|].
  unfold bind, fetch_videoCategories.
  assert (H : forall w', now w' = now w ->
                         trace w' = (trace w ++ [EvFetch VideoCategories cid])%list ->
                         requests_within 1 0 w w').
  { intros w' Hn Ht. split; [exact Hn|]. exists [EvFetch VideoCategories cid].
    repeat split; auto. }
  destruct (videoCategories (net w) _) as [|status text items]; [now apply H|].
  destruct (res_ok status); now apply H.
Qed.

Lemma fetchChannelBasics_requests (w : world) (channelId : option string) (apiKey : string) :
  requests_within 0 1 w (snd (fetchChannelBasics channelId apiKey w)).
Proof.
  unfold fetchChannelBasics.
  destruct (or_null channelId) as [chid|];
    [|apply (requests_within_weaken 0 0); [lia | lia | apply requests_within_refl]].
  unfold bind, fetch_channels.
  assert (H : forall w', now w' = now w ->
                         trace w' = (trace w ++ [EvFetch Channels chid])%list ->
                         requests_within 0 1 w w').
  { intros w' Hn Ht. split; [exact Hn|]. exists [EvFetch Channels chid].
    repeat split; auto. }
  destruct (channels (net w) _) as [|status text items]; [now apply H|].
  destruct (res_ok status); [|now apply H].
  destruct items; now apply H.
Qed.

Lemma enrich_and_log_requests (videoId url : string) (cfg : config) (meta : metadata)
    (w : world) :
  requests_within (if truthy (Some (apiKey cfg)) then 1 else 0)
                  (if truthy (Some (apiKey cfg)) then 1 else 0)
                  w (snd (enrich_and_log videoId url cfg meta w)).
Proof.
  unfold enrich_and_log. cbv zeta.
  set (hasKey := truthy (Some (apiKey cfg))).
  set (c := if hasKey then 1%nat else 0%nat).
  assert (H1 : requests_within c 0 w
                 (snd ((if hasKey then getCategoryName (m_categoryId meta) (apiKey cfg) "US"
                        else ret None) w))).
  { unfold c. destruct hasKey; [apply getCategoryName_requests | apply requests_within_refl]. }
  destruct ((if hasKey then getCategoryName _ _ _ else ret None) w) as [[cat|e1] w1] eqn:E1;
    cbn [snd] in H1.
  2: { rewrite (bind_throw _ _ _ _ _ E1). cbn [snd].
       apply (requests_within_weaken c 0); [lia | lia | exact H1]. }
  rewrite (bind_ok _ _ _ _ _ E1).
  assert (H2 : requests_within 0 c w1
                 (snd ((if (hasKey && truthy (m_channelId meta))%bool
                        then fetchChannelBasics (m_channelId meta) (apiKey cfg)
                        else ret None) w1))).
  { unfold c. destruct hasKey; cbn [andb]; [|apply requests_within_refl].
    destruct (truthy (m_channelId meta)); [apply fetchChannelBasics_requests|].
    apply (requests_within_weaken 0 0); [lia | lia | apply requests_within_refl]. }
  destruct ((if (hasKey && truthy (m_channelId meta))%bool then fetchChannelBasics _ _
             else ret None) w1) as [[ext|e2] w2] eqn:E2; cbn [snd] in H2;
    pose proof (requests_within_trans _ _ _ _ _ _ _ H1 H2) as H12;
    rewrite Nat.add_0_r in H12; cbn [Nat.add] in H12.
  2: { rewrite (bind_throw _ _ _ _ _ E2). exact H12. }
  rewrite (bind_ok _ _ _ _ _ E2).
  unfold bind, Date_now, setLogEntry, markLogged, tell. cbn [snd].
  destruct H12 as (Hn & evs & Ht & A & B & C). split; [exact Hn|].
  eexists. split; [cbn; rewrite Ht, <- !app_assoc; reflexivity|].
  rewrite !count_fetches_to_app. cbn. repeat split; lia.
Qed.

Lemma budget_of_requests (c k : nat) (w w' : world) :
  requests_within c k w w' -> within_budget 0 c k 0 w w'.
Proof.
  intros (Hn & evs & Ht & A & B & C). split; [lia|]. exists evs. repeat split; auto; lia.
Qed.

Lemma budget_weaken (v c k v' c' k' : nat) (ms ms' : Z) (w w' : world) :
  (v <= v')%nat -> (c <= c')%nat -> (k <= k')%nat -> ms <= ms' ->
  within_budget v c k ms w w' -> within_budget v' c' k' ms' w w'.
Proof.
  intros Hv Hc Hk Hms (Hn & evs & Ht & A & B & C). split; [lia|].
  exists evs. repeat split; auto; lia.
Qed.

Lemma budget_trans (v1 c1 k1 v2 c2 k2 : nat) (m1 m2 : Z) (w1 w2 w3 : world) :
  within_budget v1 c1 k1 m1 w1 w2 -> within_budget v2 c2 k2 m2 w2 w3 ->
  within_budget (v1 + v2) (c1 + c2) (k1 + k2) (m1 + m2) w1 w3.
Proof.
  intros (N1 & evs1 & T1 & A1 & B1 & C1) (N2 & evs2 & T2 & A2 & B2 & C2).
  split; [lia|]. exists (evs1 ++ evs2)%list.
  split; [rewrite T2, T1; now rewrite app_assoc|].
  rewrite !count_fetches_to_app. repeat split; lia.
Qed.

Lemma budget_emit (ev : event) (w : world) :
  is_any_fetch ev = false -> within_budget 0 0 0 0 w (emit ev w).
Proof.
  intros Hev. split; [cbn; lia|]. exists [ev]. split; [reflexivity|].
  unfold count_fetches_to. destruct ev; try discriminate; cbn; repeat split; lia.
Qed.

Lemma count_backoff_events_other (videoId : string) (attempt : Z) (j : nat) :
  count_fetches_to VideoCategories (backoff_events videoId attempt j) = 0%nat
  /\ count_fetches_to Channels (backoff_events videoId attempt j) = 0%nat.
Proof.
  pose proof (count_fetches_split (backoff_events videoId attempt j)) as Hs.
  rewrite count_fetches_backoff_events, count_backoff_events in Hs. lia.
Qed.

Lemma fetch_loop_budget (videoId : string) (maxRetries : nat) (w : world) :
  within_budget (S maxRetries) 0 0
                (150 * Z.of_nat maxRetries * (Z.of_nat maxRetries + 1))
                w (snd (fetch_loop videoId maxRetries 0 w)).
Proof.
  pose proof (fetch_loop_run videoId maxRetries 0 w) as HL.
  pose proof (fetch_loop_clock videoId maxRetries 0 w) as HC. cbv zeta in HL, HC.
  set (j := failures_before_last _ _ _) in *.
  destruct HL as (_ & _ & F3 & _ & _ & F6).
  destruct (count_backoff_events_other videoId 0 j) as [Hc Hk].
  split; [nia|]. exists (backoff_events videoId 0 j).
  split; [exact F3|]. rewrite count_backoff_events, Hc, Hk. repeat split; lia.
Qed.

(** X20. One intake sends at most 6 requests: at most 4 to the videos
    endpoint, at most one for the category name and at most one for the
    channel; it waits at most 1800 ms in all; and it sends no request
    and does not wait at all when the dedup guard suppresses it or when
    no API key is set. *)
Theorem intake_request_budget (w : world) (videoId url : string) :
  let evs := events_of (logYouTubeWatch videoId url) w in
  let final := after (logYouTubeWatch videoId url) w in
  (count_fetches_to Videos evs <= 4)%nat
  /\ (count_fetches_to VideoCategories evs <= 1)%nat
  /\ (count_fetches_to Channels evs <= 1)%nat
  /\ (count_fetches evs <= 6)%nat
  /\ 0 <= now final - now w <= 1800
  /\ (suppressed w videoId = true \/ truthy (Some (apiKey (config_of w))) = false ->
      count_fetches evs = 0%nat /\ now final = now w).
Proof.
  cbv zeta.
  set (quietly := suppressed w videoId || negb (truthy (Some (apiKey (config_of w))))).
  assert (H : within_budget (if quietly then 0 else 4) (if quietly then 0 else 1)
                            (if quietly then 0 else 1) (if quietly then 0 else 1800)
                            w (after (logYouTubeWatch videoId url) w)).
  { unfold after, logYouTubeWatch, try_catch.
    rewrite logYouTubeWatch_body_front. cbv zeta.
    set (w2 := emit (EvLocalGet "lastLogged") (emit EvSyncGet w)).
    assert (B2 : within_budget 0 0 0 0 w w2).
    { apply (budget_trans 0 0 0 0 0 0 0 0 w (emit EvSyncGet w) w2);
        apply budget_emit; reflexivity. }
    unfold quietly. destruct (suppressed w videoId) eqn:Hsupp; [exact B2|].
    destruct (truthy (Some (apiKey (config_of w)))) eqn:Hkey; cbn [orb negb].
    - pose proof (fetch_loop_budget videoId 3 w2) as BL.
      unfold fetchVideoMetadataRich.
      destruct (fetch_loop videoId 3 0 w2) as [[meta|err] w3] eqn:EL; cbn [snd] in BL.
      + rewrite (bind_ok _ _ _ _ _ EL).
        pose proof (budget_of_requests _ _ _ _
                      (enrich_and_log_requests videoId url (config_of w) meta w3)) as BE.
        rewrite Hkey in BE.
        pose proof (budget_trans _ _ _ _ _ _ _ _ _ _ _ (budget_trans _ _ _ _ _ _ _ _ _ _ _ B2 BL) BE)
          as B.
        destruct (enrich_and_log videoId url (config_of w) meta w3) as [[[]|err2] w4];
          cbn [snd] in *.
        * exact B.
        * apply (budget_trans _ _ _ 0 0 0 _ 0 _ _ _ B). now apply budget_emit.
      + rewrite (bind_throw _ _ _ _ _ EL). cbn [snd tell].
        pose proof (budget_trans _ _ _ _ _ _ _ _ _ _ _ B2 BL) as B.
        apply (budget_weaken 4 0 0 4 1 1 1800 1800); [lia | lia | lia | lia |].
        apply (budget_trans _ _ _ 0 0 0 _ 0 _ _ _ B). now apply budget_emit.
    - change ((ret (fallback_meta videoId)) w2) with (Ok (fallback_meta videoId), w2).
      rewrite (bind_ok _ _ w2 w2 (fallback_meta videoId) eq_refl).
      pose proof (budget_of_requests _ _ _ _
                    (enrich_and_log_requests videoId url (config_of w)
                       (fallback_meta videoId) w2)) as BE.
      rewrite Hkey in BE.
      pose proof (budget_trans _ _ _ _ _ _ _ _ _ _ _ B2 BE) as B.
      destruct (enrich_and_log videoId url (config_of w) (fallback_meta videoId) w2)
        as [[[]|err2] w4]; cbn [snd] in *.
      + exact B.
      + apply (budget_trans _ _ _ 0 0 0 _ 0 _ _ _ B). now apply budget_emit. }
  destruct H as (Hclock & evs & Ht & A & B & C).
  rewrite (events_of_app _ _ evs Ht), count_fetches_split.
  assert (Hq : suppressed w videoId = true \/ truthy (Some (apiKey (config_of w))) = false
               -> quietly = true).
  { unfold quietly. intros [->| ->]; [reflexivity | apply orb_true_r]. }
  destruct quietly.
  - repeat split; try lia.
  - split; [lia|]. split; [lia|]. split; [lia|]. split; [lia|]. split; [lia|].
    intros Hc. specialize (Hq Hc). discriminate.
Qed.

(** ** Expiry of a dedup record *)

(** X21. Suppression only ends: a check that is true at some time, under some
    ttl, is true at every earlier time and under every longer ttl; so,
    unless the key is marked again, a video that is no longer suppressed
    stays so.  A ttl of zero or less switches the guard off for every
    record that is not from the future. *)
Theorem dedup_expiry_monotone (w : world) (p x : string) (ttl ttl' earlier later : Z) :
  earlier <= later -> ttl <= ttl' ->
  (returned (recentlyLogged p x ttl) (at_time later w) = Some true ->
   returned (recentlyLogged p x ttl') (at_time earlier w) = Some true)
  /\ (returned (recentlyLogged p x ttl') (at_time earlier w) = Some false ->
      returned (recentlyLogged p x ttl) (at_time later w) = Some false)
  /\ (ttl <= 0 ->
      forall last, lastLogged (local w) !! dedup_key p x = Some last -> last <= later ->
                   returned (recentlyLogged p x ttl) (at_time later w) = Some false).
Proof.
  intros Ht Httl. rewrite !recentlyLogged_returns.
  change (local (at_time later w)) with (local w).
  change (local (at_time earlier w)) with (local w).
  change (now (at_time later w)) with later. change (now (at_time earlier w)) with earlier.
  destruct (lastLogged (local w) !! dedup_key p x) as [last|];
    [|split; [discriminate|]; split; [reflexivity|]; intros _ l [=]].
  assert (Hmono : age_below later last ttl = true -> age_below earlier last ttl' = true).
  { rewrite !age_below_spec. lia. }
  split; [intros [= H]; now rewrite Hmono|]. split.
  - intros [= H]. destruct (age_below later last ttl); [|reflexivity].
    rewrite Hmono in H by reflexivity. discriminate.
  - intros Hz l [= <-] Hl. destruct (age_below later last ttl) eqn:E; [|reflexivity].
    apply age_below_spec in E. lia.
Qed.

Lemma dedup_expiry_monotone_witness :
  let w := after (markLogged "Child" "abc123") (fresh_install offline 0) in
  returned (recentlyLogged "Child" "abc123" 120) (at_time (130 * 60000) w) = Some false.
Proof.
  intros w.
  destruct (dedup_expiry_monotone w "Child" "abc123" 120 120 (120 * 60000) (130 * 60000))
    as (_ & H & _).
  - lia.
  - lia.
  - apply H. vm_compute. reflexivity.
Defined.
